(** * disopy: the per-guild queue and the playback commands

    A shallow embedding of [src/disopy/cogs/queue.py]: the [Song] tuple, the
    [Queue] class (a dict from guild id to a deque of songs) and the
    [QueueCog] commands that drive the playback, followed by the properties
    of the queue and session manager that the specification lists.

    Python objects are mutated in place and a raised exception leaves the
    mutations done so far; the methods are therefore written in a small
    monad that threads the cog, collects the calls made to the outside
    (Discord, the Subsonic server) and ends either with a value or with the
    exception raised. *)

From stdpp Require Import base decidable option list strings pretty gmap.
From Stdlib Require Import ZArith Lia.

Open Scope Z_scope.

(** ** Data model *)

(** [class Song(NamedTuple)]: equality of a named tuple is field-wise. *)
Record Song := mkSong {
  Song_id : string;
  title : string;
  artist : string;
  duration : Z
}.

Global Instance Song_eq_dec : EqDecision Song.
Proof. solve_decision. Defined.

(** The exceptions that the modelled code can meet. *)
Inductive exn :=
| IndexError        (* deque.popleft() on an empty deque *)
| KeyError          (* dict lookup of an absent key *)
| TypeError         (* subscript of an object without __getitem__ *)
| AttributeError    (* attribute of an object that lacks it *)
| HTTPError         (* requests.exceptions.HTTPError *)
| ConnectionError   (* requests.exceptions.ConnectionError *)
| ClientException   (* discord.ClientException *)
| OtherError (msg : string).

Global Instance exn_eq_dec : EqDecision exn.
Proof. solve_decision. Defined.

(** [class Queue]: [self.queue: dict[str, deque[Song]]]. *)
Record Queue := mkQueue {
  Queue_queue : gmap string (list Song)
}.

(** The attributes that [QueueCog.__init__] creates. *)
Record QueueCog := mkQueueCog {
  queue : Queue;
  now_playing : option Song;
  loop : Z;                     (* 0: no loop; 1: loop queue; 2: loop track *)
  skip_next_autoplay : bool
}.

(** [QueueCog.__init__]. *)
Definition QueueCog_init : QueueCog :=
  {| queue := mkQueue ∅;
     now_playing := None;
     loop := 0;
     skip_next_autoplay := false |}.

(** What the code reads from a Discord interaction. *)
Record VoiceClient := mkVoiceClient {
  channel : Z;
  is_playing : bool;
  is_paused : bool
}.

Record Guild := mkGuild {
  guild_id : Z;
  voice_client : option VoiceClient
}.

(** [user.voice] and [user.voice.channel] may each be [None]. *)
Record VoiceState := mkVoiceState {
  voice_channel : option Z
}.

Inductive UserT :=
| User                                 (* discord.User: not a guild member *)
| Member (voice : option VoiceState).  (* discord.Member *)

Record Interaction := mkInteraction {
  guild : option Guild;
  user : UserT
}.

(** The argument [what] of the loop command: a [Choice], or the plain
    integer that the signature gives as default. *)
Inductive What :=
| Choice (name : string) (value : Z)
| PlainInt (n : Z).

(** The answers of the world outside during one call: the song cache on
    disk, the Subsonic server and the voice connection. *)
Record World := mkWorld {
  is_file : string → bool;               (* song_path.is_file(), by song id *)
  download : string → bool → option exn; (* download(id, path, use_stream) *)
  play : option exn;                     (* voice_client.play(...) raising *)
  source : bool;                         (* voice_client.source is not None *)
  connect : option exn                   (* channel.connect(...) raising *)
}.

(** The calls made to the outside, in order. *)
Inductive event :=
| send_error (content : list string)
| send_answer (title : string) (content : list string)
| ev_download (song_id : string) (use_stream : bool)
| ev_connect (channel : Z)
| ev_play (guild : Z) (song : Song)
| ev_set_source (guild : Z) (song : Song)
| ev_stop (guild : Z)
| ev_pause (guild : Z)
| ev_resume (guild : Z).

(** ** The monad of the methods *)

Inductive outcome (A : Type) :=
| Return (a : A)
| Raise (e : exn).
Arguments Return {A} a.
Arguments Raise {A} e.

Record run (A : Type) := mkRun {
  final : QueueCog;
  trace : list event;
  result : outcome A
}.
Arguments mkRun {A} _ _ _.
Arguments final {A} _.
Arguments trace {A} _.
Arguments result {A} _.

Definition M (A : Type) : Type := QueueCog → run A.

Definition ret {A} (a : A) : M A := λ c, mkRun c [] (Return a).

Definition raise {A} (e : exn) : M A := λ c, mkRun c [] (Raise e).

(** The events of an earlier part of the run go before those of [r]. *)
Definition prepend {A} (tr : list event) (r : run A) : run A :=
  match r with
  | mkRun c tr' res => mkRun c (tr ++ tr') res
  end.

Definition bind {A B} (m : M A) (k : A → M B) : M B := λ c,
  match m c with
  | mkRun c' tr (Return a) => prepend tr (k a c')
  | mkRun c' tr (Raise e) => mkRun c' tr (Raise e)
  end.

(** [try: m except: h]: the handler decides which exceptions it takes. *)
Definition try_except {A} (m : M A) (h : exn → option (M A)) : M A := λ c,
  match m c with
  | mkRun c' tr (Return a) => mkRun c' tr (Return a)
  | mkRun c' tr (Raise e) =>
      match h e with
      | Some k => prepend tr (k c')
      | None => mkRun c' tr (Raise e)
      end
  end.

Definition gets {A} (f : QueueCog → A) : M A := λ c, mkRun c [] (Return (f c)).

Definition modify (f : QueueCog → QueueCog) : M unit := λ c, mkRun (f c) [] (Return tt).

Definition emit (e : event) : M unit := λ c, mkRun c [e] (Return tt).

Global Instance M_ret : MRet M := @ret.
Global Instance M_bind : MBind M := λ A B k m, bind m k.

(** Attribute assignments. *)
Definition set_queue_dict (d : gmap string (list Song)) : M unit :=
  modify (λ c, {| queue := mkQueue d; now_playing := now_playing c;
                  loop := loop c; skip_next_autoplay := skip_next_autoplay c |}).

Definition set_now_playing (s : option Song) : M unit :=
  modify (λ c, {| queue := queue c; now_playing := s;
                  loop := loop c; skip_next_autoplay := skip_next_autoplay c |}).

Definition set_loop (n : Z) : M unit :=
  modify (λ c, {| queue := queue c; now_playing := now_playing c;
                  loop := n; skip_next_autoplay := skip_next_autoplay c |}).

Definition set_skip_next_autoplay (b : bool) : M unit :=
  modify (λ c, {| queue := queue c; now_playing := now_playing c;
                  loop := loop c; skip_next_autoplay := b |}).

(** ** [class Queue] *)

(** [str(interaction.guild.id)]. *)
Definition str (n : Z) : string := pretty n.

(** [self.queue[id]] read. *)
Definition queue_getitem (id : string) : M (list Song) :=
  d ← gets (λ c, Queue_queue (queue c));
  match d !! id with
  | Some q => ret q
  | None => raise KeyError
  end.

(** [self.queue[id] = q]. *)
Definition queue_setitem (id : string) (q : list Song) : M unit :=
  d ← gets (λ c, Queue_queue (queue c));
  set_queue_dict (<[id := q]> d).

Definition _check_guild (interaction : Interaction) : M (option string) :=
  match guild interaction with
  | None => ret None
  | Some g =>
      let id := str (guild_id g) in
      d ← gets (λ c, Queue_queue (queue c));
      (if decide (is_Some (d !! id)) then ret tt else queue_setitem id []);;
      ret (Some id)
  end.

Definition Queue_get (interaction : Interaction) : M (list Song) :=
  id ← _check_guild interaction;
  match id with
  | None => ret []
  | Some id => queue_getitem id
  end.

Definition Queue_pop (interaction : Interaction) : M (option Song) :=
  id ← _check_guild interaction;
  match id with
  | None => ret None
  | Some id =>
      q ← queue_getitem id;
      match q with
      | [] => raise IndexError
      | s :: q' => queue_setitem id q';; ret (Some s)
      end
  end.

Definition Queue_append (interaction : Interaction) (song : Song) : M unit :=
  id ← _check_guild interaction;
  match id with
  | None => ret tt
  | Some id =>
      q ← queue_getitem id;
      queue_setitem id (q ++ [song])
  end.

Definition Queue_length (interaction : Interaction) : M Z :=
  id ← _check_guild interaction;
  match id with
  | None => ret 0
  | Some id =>
      q ← queue_getitem id;
      ret (Z.of_nat (length q))
  end.

(** [sample] stands for [random.sample(q, len(q))]. *)
Definition Queue_shuffle (sample : list Song → list Song)
    (interaction : Interaction) : M unit :=
  id ← _check_guild interaction;
  match id with
  | None => ret tt
  | Some id =>
      q ← queue_getitem id;
      queue_setitem id (sample q)
  end.

Definition Queue_duration (interaction : Interaction) : M Z :=
  id ← _check_guild interaction;
  match id with
  | None => ret 0
  | Some id =>
      q ← queue_getitem id;
      ret (foldr (λ song acc, duration song + acc) 0 q)
  end.

Definition Queue_clear (interaction : Interaction) : M unit :=
  id ← _check_guild interaction;
  match id with
  | None => ret tt
  | Some id => queue_setitem id []
  end.

(** ** [class QueueCog]

    First [get_voice_client], the two advance entry points
    [play_next_callback] and [play_queue], and the commands stop, pause,
    skip, clear, resume, loop and shuffle. The commands play, leave and
    queue follow further down, with the names that [query_autocomplete]
    gives to its choices. The command playlist, which reaches the cog
    through [Queue.append], [Queue.length], [get_voice_client] and
    [play_queue] only, and the command volume, which does not touch the
    cog, are not embedded. *)

(** The error messages of [get_voice_client]. *)
Definition msg_not_member : string :=
  "You are not a member of the guild, something has gone very wrong...".
Definition msg_no_voice_channel : string :=
  "You are not connected to any voice channel!".
Definition msg_no_guild : string :=
  "We are not chatting in a guild, something has gone very wrong...".
Definition msg_not_connected : string :=
  "I'm not connected to a voice channel!".
Definition msg_other_channel : string :=
  "Join the same voice channel where I am".

(** [user.voice is None or user.voice.channel is None] fails the second
    test of [get_voice_client]; otherwise the user's channel is known. *)
Definition user_channel (v : option VoiceState) : option Z :=
  match v with
  | None => None
  | Some vs => voice_channel vs
  end.

Definition get_voice_client (w : World) (interaction : Interaction)
    (connect_arg : bool) : M (option VoiceClient) :=
  match user interaction with
  | User => emit (send_error [msg_not_member]);; ret None
  | Member voice =>
      match user_channel voice with
      | None => emit (send_error [msg_no_voice_channel]);; ret None
      | Some user_ch =>
          match guild interaction with
          | None => emit (send_error [msg_no_guild]);; ret None
          | Some g =>
              match voice_client g with
              | None =>
                  if connect_arg then
                    Queue_clear interaction;;
                    set_now_playing None;;
                    set_loop 0;;
                    emit (ev_connect user_ch);;
                    match connect w with
                    | Some e => raise e
                    | None => ret (Some (mkVoiceClient user_ch false false))
                    end
                  else
                    emit (send_error [msg_not_connected]);; ret None
              | Some vc =>
                  if decide (user_ch ≠ channel vc) then
                    emit (send_error [msg_other_channel]);; ret None
                  else ret (Some vc)
              end
          end
      end
  end.

(** [self.subsonic.media_retrieval.download(song.id, song_path, use_stream)]. *)
Definition subsonic_download (w : World) (song_id : string) (use_stream : bool)
    : M unit :=
  emit (ev_download song_id use_stream);;
  match download w song_id use_stream with
  | Some e => raise e
  | None => ret tt
  end.

(** The part of [play_queue] that runs once a song has been chosen: the
    cache test, the download with its fallback, and the handoff to the
    voice client. [mkdir(parents=True, exist_ok=True)] and the logger calls
    leave no mark on the cog and are not listed. *)
Definition play_song (w : World) (interaction : Interaction) (song : Song)
    : M unit :=
  (if is_file w (Song_id song) then ret tt
   else
     try_except
       (subsonic_download w (Song_id song) false)
       (λ e, match e with
             | HTTPError => Some (subsonic_download w (Song_id song) true)
             | _ => None
             end));;
  match guild interaction with
  | None => ret tt
  | Some g =>
      match voice_client g with
      | None => ret tt
      | Some vc =>
          emit (ev_play (guild_id g) song);;
          match play w with
          | Some e => raise e
          | None =>
              if source w then
                set_now_playing (Some song);;
                emit (ev_set_source (guild_id g) song)
              else ret tt
          end
      end
  end.

Definition play_queue (w : World) (interaction : Interaction)
    (exception : option exn) : M unit :=
  match exception with
  | Some e => raise e
  | None =>
      len ← Queue_length interaction;
      lp ← gets loop;
      if bool_decide (len = 0) && bool_decide (lp < 2) then ret tt
      else
        song ← (if bool_decide (lp < 2) then Queue_pop interaction
                else gets now_playing);
        (if bool_decide (lp = 1) then
           match song with
           | Some s => Queue_append interaction s
           | None =>
               (* append(interaction, None): pop gives None only without
                  a guild, and then append returns at its guild test. *)
               _check_guild interaction;; ret tt
           end
         else ret tt);;
        match song with
        | None => ret tt
        | Some s => play_song w interaction s
        end
  end.

Definition play_next_callback (w : World) (interaction : Interaction)
    (exception : option exn) : M unit :=
  skip ← gets skip_next_autoplay;
  if (skip : bool) then set_skip_next_autoplay false
  else play_queue w interaction exception.

(** The guild of a voice client that [get_voice_client] returned is the
    guild of the interaction; the events name it by its id. *)
Definition guild_id_of (interaction : Interaction) : Z :=
  match guild interaction with
  | Some g => guild_id g
  | None => 0
  end.

Definition stop (w : World) (interaction : Interaction) : M unit :=
  vc ← get_voice_client w interaction false;
  match vc with
  | None => ret tt
  | Some vc =>
      if negb (is_playing vc) then
        emit (send_error ["No song currently playing!"])
      else
        set_skip_next_autoplay true;;
        emit (ev_stop (guild_id_of interaction));;
        set_now_playing None;;
        emit (send_answer "🛑 Song stopped" [])
  end.

Definition pause (w : World) (interaction : Interaction) : M unit :=
  vc ← get_voice_client w interaction false;
  match vc with
  | None => ret tt
  | Some vc =>
      if negb (is_playing vc) then
        emit (send_error ["No song currently playing!"])
      else
        emit (ev_pause (guild_id_of interaction));;
        emit (send_answer "⏸️ Song paused" [])
  end.

Definition skip (w : World) (interaction : Interaction) : M unit :=
  vc ← get_voice_client w interaction false;
  match vc with
  | None => ret tt
  | Some vc =>
      if negb (is_playing vc) then
        emit (send_error ["No song currently playing!"])
      else
        emit (ev_stop (guild_id_of interaction));;
        emit (send_answer "⏭️ Song skipped" [])
  end.

Definition clear (w : World) (interaction : Interaction) : M unit :=
  vc ← get_voice_client w interaction false;
  match vc with
  | None => ret tt
  | Some vc =>
      Queue_clear interaction;;
      emit (send_answer "🗑️ Cleared the queue" [])
  end.

Definition resume (w : World) (interaction : Interaction) : M unit :=
  vc ← get_voice_client w interaction false;
  match vc with
  | None => ret tt
  | Some vc =>
      if is_paused vc then
        emit (ev_resume (guild_id_of interaction));;
        emit (send_answer "▶️ Resuming the song" [])
      else
        len ← Queue_length interaction;
        if bool_decide (len = 0) then
          emit (send_error ["The queue is empty"])
        else
          play_queue w interaction None;;
          emit (send_answer "▶️ Resuming the playback" [])
  end.

(** [what.value]: a plain integer has no such attribute. *)
Definition what_value (what : What) : M Z :=
  match what with
  | Choice _ v => ret v
  | PlainInt _ => raise AttributeError
  end.

(** [what == 1]: a [Choice] is equal to other choices only. *)
Definition what_eq_1 (what : What) : bool :=
  match what with
  | Choice _ _ => false
  | PlainInt n => bool_decide (n = 1)
  end.

(** [a and b], where [b] is evaluated only when [a] holds. *)
Definition and_then (a : bool) (b : M bool) : M bool :=
  if a then b else ret false.

(** [self.queue[-1]]: [self.queue] is the [Queue] object, not the deque of
    the guild, and [Queue] defines no [__getitem__]. *)
Definition cog_queue_getitem_last : M Song := raise TypeError.

Definition loop_command (w : World) (interaction : Interaction) (what : What)
    : M unit :=
  vc ← get_voice_client w interaction false;
  match vc with
  | None => ret tt
  | Some vc =>
      len ← Queue_length interaction;
      empty_reject ← and_then (bool_decide (len = 0))
                       (v ← what_value what; ret (bool_decide (v ≠ 2)));
      if (empty_reject : bool) then emit (send_error ["The queue is empty"])
      else
        np ← gets now_playing;
        idle_reject ← and_then (bool_decide (np = None))
                        (v ← what_value what; ret (bool_decide (v = 2)));
        if (idle_reject : bool) then emit (send_error ["Nothing is playing"])
        else
          v ← what_value what;
          lp ← gets loop;
          if bool_decide (v = lp) then
            set_loop 0;;
            emit (send_answer "🔁 Stopped looping" [])
          else
            v1 ← what_value what;
            np ← gets now_playing;
            rejoin ← and_then (bool_decide (v1 = 1))
                       (and_then (bool_decide (np ≠ None))
                          (last ← cog_queue_getitem_last;
                           ret (bool_decide (np ≠ Some last))));
            (if (rejoin : bool) then
               match np with
               | Some s => Queue_append interaction s
               | None => ret tt
               end
             else ret tt);;
            v2 ← what_value what;
            set_loop v2;;
            emit (send_answer (if what_eq_1 what then "🔁 Now looping queue"
                               else "🔂 Now looping current track") [])
  end.

Definition shuffle_command (sample : list Song → list Song) (w : World)
    (interaction : Interaction) : M unit :=
  vc ← get_voice_client w interaction false;
  match vc with
  | None => ret tt
  | Some vc =>
      len ← Queue_length interaction;
      if bool_decide (len = 0) then
        emit (send_error ["The queue is empty"])
      else
        Queue_shuffle sample interaction;;
        emit (send_answer "🔀 Shuffling the queue" [])
  end.

(** ** Vocabulary of the properties *)

(** The dict of the queue object of a cog, and the cog with another dict. *)
Definition dict (c : QueueCog) : gmap string (list Song) :=
  Queue_queue (queue c).

Definition with_dict (c : QueueCog) (d : gmap string (list Song)) : QueueCog :=
  {| queue := mkQueue d; now_playing := now_playing c;
     loop := loop c; skip_next_autoplay := skip_next_autoplay c |}.

(** The songs queued for a guild key: a guild without an entry has none. *)
Definition songs (c : QueueCog) (k : string) : list Song :=
  default [] (dict c !! k).

Definition set_songs (k : string) (q : list Song) (c : QueueCog) : QueueCog :=
  with_dict c (<[k := q]> (dict c)).

(** The state after [_check_guild] for key [k]: the entry exists. *)
Definition ensure (k : string) (c : QueueCog) : QueueCog :=
  set_songs k (songs c k) c.

(** The key under which the queue of an interaction's guild is kept. *)
Definition guild_key (interaction : Interaction) : option string :=
  match guild interaction with
  | Some g => Some (str (guild_id g))
  | None => None
  end.

(** The session state that a command reads and writes while it serves an
    interaction. [QueueCog.__init__] creates [now_playing], [loop] and
    [skip_next_autoplay] once for the cog, and every method reaches them
    through [self]: they do not depend on the interaction served. *)
Definition session_of (c : QueueCog) (interaction : Interaction)
    : option Song * Z * bool :=
  (now_playing c, loop c, skip_next_autoplay c).

(** The songs handed to the voice client in a trace, in order. *)
Definition played (tr : list event) : list Song :=
  omap (λ e, match e with ev_play _ s => Some s | _ => None end) tr.

(** No call to the voice client at all in a trace. *)
Definition is_voice_event (e : event) : bool :=
  match e with
  | send_error _ | send_answer _ _ | ev_download _ _ => false
  | _ => true
  end.

Definition user_error (e : event) : bool :=
  match e with
  | send_error _ => true
  | _ => false
  end.

(** What [get_voice_client] returns when it is not asked to connect: the
    guild and its voice client, when the user sits in the channel of the
    bot. *)
Definition joined (interaction : Interaction) : option (Guild * VoiceClient) :=
  match user interaction with
  | User => None
  | Member voice =>
      match user_channel voice, guild interaction with
      | Some user_ch, Some g =>
          match voice_client g with
          | Some vc => if decide (user_ch ≠ channel vc) then None else Some (g, vc)
          | None => None
          end
      | _, _ => None
      end
  end.

(** The operations that reach the cog: the methods of [Queue] and the
    commands and callbacks of [QueueCog]. *)
Inductive command :=
| do_get
| do_pop
| do_append (song : Song)
| do_length
| do_shuffle (sample : list Song → list Song)
| do_duration
| do_clear
| do_get_voice_client (connect_arg : bool)
| do_play_next_callback (exception : option exn)
| do_play_queue (exception : option exn)
| cmd_stop
| cmd_pause
| cmd_skip
| cmd_clear
| cmd_resume
| cmd_loop (what : What)
| cmd_shuffle (sample : list Song → list Song).

Definition run_command (w : World) (interaction : Interaction) (cmd : command)
    : M unit :=
  match cmd with
  | do_get => Queue_get interaction;; ret tt
  | do_pop => Queue_pop interaction;; ret tt
  | do_append song => Queue_append interaction song
  | do_length => Queue_length interaction;; ret tt
  | do_shuffle sample => Queue_shuffle sample interaction
  | do_duration => Queue_duration interaction;; ret tt
  | do_clear => Queue_clear interaction
  | do_get_voice_client connect_arg =>
      get_voice_client w interaction connect_arg;; ret tt
  | do_play_next_callback exception => play_next_callback w interaction exception
  | do_play_queue exception => play_queue w interaction exception
  | cmd_stop => stop w interaction
  | cmd_pause => pause w interaction
  | cmd_skip => skip w interaction
  | cmd_clear => clear w interaction
  | cmd_resume => resume w interaction
  | cmd_loop what => loop_command w interaction what
  | cmd_shuffle sample => shuffle_command sample w interaction
  end.

(** One advance: [play_queue] called by a command, or [play_next_callback]
    called by the voice client when a track has ended. *)
Record call := mkCall {
  call_world : World;
  call_interaction : Interaction;
  call_exception : option exn;
  via_callback : bool
}.

Definition advance (a : call) : M unit :=
  if via_callback a then
    play_next_callback (call_world a) (call_interaction a) (call_exception a)
  else
    play_queue (call_world a) (call_interaction a) (call_exception a).

(** Advances one after the other. Each is an event handler of its own: an
    exception that one raises ends that handler, and the next one finds the
    cog as the failed one left it. *)
Fixpoint advances (calls : list call) (c : QueueCog) : QueueCog * list event :=
  match calls with
  | [] => (c, [])
  | a :: rest =>
      let r := advance a c in
      let '(c', tr) := advances rest (final r) in
      (c', trace r ++ tr)
  end.


(** The media of a song can be had: from the cache, from the download, or
    from the stream after an HTTP error of the download. *)
Definition resolves (w : World) (song : Song) : bool :=
  is_file w (Song_id song)
  || match download w (Song_id song) false with
     | None => true
     | Some HTTPError => bool_decide (download w (Song_id song) true = None)
     | Some _ => false
     end.

(** An advance for the guild [gid] that meets no obstacle on its way to the
    voice client, whichever song of [q] it has to play. *)
Definition smooth (gid : Z) (q : list Song) (a : call) : bool :=
  bool_decide (call_exception a = None)
  && match guild (call_interaction a) with
     | Some g => bool_decide (guild_id g = gid) && bool_decide (voice_client g ≠ None)
     | None => false
     end
  && forallb (resolves (call_world a)) q
  && bool_decide (play (call_world a) = None).

(** The first [n] songs of the endless repetition of [q]. *)
Definition cyclic (q : list Song) (n : nat) : list Song :=
  omap (λ j, q !! (j mod length q)%nat) (seq 0 n).

(** A relation between the cog before and after that every run of [m]
    respects, whether it returns or raises. *)
Definition preserves (R : relation QueueCog) {A} (m : M A) : Prop :=
  ∀ c, R c (final (m c)).

(** The entry of key [k] in the dict is the same. *)
Definition same_at (k : string) : relation QueueCog :=
  λ c c', dict c' !! k = dict c !! k.

(** ** Concrete songs, guilds and worlds for the examples *)

Definition song_A : Song := mkSong "a1" "Alpha" "Ann" 180.
Definition song_B : Song := mkSong "b2" "Beta" "Bob" 200.
Definition song_C : Song := mkSong "c3" "Gamma" "Cy" 240.

(** A member sitting in voice channel 7 of guild 1, where the bot plays. *)
Definition guild1_playing : Interaction :=
  {| guild := Some (mkGuild 1 (Some (mkVoiceClient 7 true false)));
     user := Member (Some (mkVoiceState (Some 7))) |}.

(** The same place once the track has ended. *)
Definition guild1_idle : Interaction :=
  {| guild := Some (mkGuild 1 (Some (mkVoiceClient 7 false false)));
     user := Member (Some (mkVoiceState (Some 7))) |}.

(** A member sitting in voice channel 9 of guild 2, where the bot plays. *)
Definition guild2_playing : Interaction :=
  {| guild := Some (mkGuild 2 (Some (mkVoiceClient 9 true false)));
     user := Member (Some (mkVoiceState (Some 9))) |}.

Definition guild2_idle : Interaction :=
  {| guild := Some (mkGuild 2 (Some (mkVoiceClient 9 false false)));
     user := Member (Some (mkVoiceState (Some 9))) |}.

(** Every song is in the cache and the voice client takes it. *)
Definition world_cached : World :=
  {| is_file := λ _, true; download := λ _ _, None;
     play := None; source := true; connect := None |}.

(** Nothing is in the cache and the Subsonic server cannot be reached. *)
Definition world_offline : World :=
  {| is_file := λ _, false; download := λ _ _, Some ConnectionError;
     play := None; source := true; connect := None |}.

(** Nothing is in the cache, the download endpoint answers with an HTTP
    error and the stream endpoint works. *)
Definition world_stream_only : World :=
  {| is_file := λ _, false;
     download := λ _ use_stream, if use_stream then None else Some HTTPError;
     play := None; source := true; connect := None |}.



(** A cog with the given queue for guild 1. *)
Definition cog_guild1 (q : list Song) (np : option Song) (lp : Z) : QueueCog :=
  {| queue := mkQueue {[ "1" := q ]}; now_playing := np; loop := lp;
     skip_next_autoplay := false |}.

(** ** The outcome of [play_song] and [play_queue], spelled out *)

(** The exception, if any, that the resolution of the media of a song lets
    through: an HTTP error of the download is answered by the stream. *)
Definition resolve_error (w : World) (song : Song) : option exn :=
  if is_file w (Song_id song) then None
  else match download w (Song_id song) false with
       | None => None
       | Some HTTPError => download w (Song_id song) true
       | Some e => Some e
       end.

(** The requests that the resolution sends to the Subsonic server. *)
Definition downloads (w : World) (song : Song) : list event :=
  if is_file w (Song_id song) then []
  else ev_download (Song_id song) false ::
       match download w (Song_id song) false with
       | Some HTTPError => [ev_download (Song_id song) true]
       | _ => []
       end.

Definition with_now_playing (c : QueueCog) (s : option Song) : QueueCog :=
  {| queue := queue c; now_playing := s;
     loop := loop c; skip_next_autoplay := skip_next_autoplay c |}.

(** The cog after the [_check_guild] of an interaction. *)
Definition checked (interaction : Interaction) (c : QueueCog) : QueueCog :=
  match guild_key interaction with
  | Some k => ensure k c
  | None => c
  end.

Definition with_loop (c : QueueCog) (n : Z) : QueueCog :=
  {| queue := queue c; now_playing := now_playing c;
     loop := n; skip_next_autoplay := skip_next_autoplay c |}.

Definition with_skip (c : QueueCog) (b : bool) : QueueCog :=
  {| queue := queue c; now_playing := now_playing c;
     loop := loop c; skip_next_autoplay := b |}.

(** A smooth advance, for whatever guild the interaction comes from. *)
Definition smooth_any (q : list Song) (a : call) : bool :=
  smooth (guild_id_of (call_interaction a)) q a.

(** ** More of the cog: the leave command, the queue listing and the names
       of the autocomplete choices *)

(** [try: m finally: f]. *)
Definition try_finally {A} (m : M A) (f : M unit) : M A := λ c,
  match m c with
  | mkRun c' tr res =>
      match f c' with
      | mkRun c'' tr' (Return _) => mkRun c'' (tr ++ tr') res
      | mkRun c'' tr' (Raise e) => mkRun c'' (tr ++ tr') (Raise e)
      end
  end.

(** [leave]: the tests of [get_voice_client], written out once more in the
    source, then the disconnect with the answer in a [finally]. The
    argument [disconnect] is the exception, if any, that
    [guild.voice_client.disconnect()] raises. *)
Definition leave (disconnect : option exn) (interaction : Interaction)
    : M unit :=
  match user interaction with
  | User => emit (send_error [msg_not_member])
  | Member voice =>
      match user_channel voice with
      | None => emit (send_error [msg_no_voice_channel])
      | Some user_ch =>
          match guild interaction with
          | None => emit (send_error [msg_no_guild])
          | Some g =>
              match voice_client g with
              | None => emit (send_error [msg_not_connected])
              | Some vc =>
                  if decide (user_ch ≠ channel vc) then
                    emit (send_error [msg_other_channel])
                  else
                    try_finally
                      (match disconnect with
                       | Some e => raise e
                       | None => ret tt
                       end)
                      (emit (send_answer "🚪 Bot left" ["Goodbye."]))
              end
          end
      end
  end.

(** [ceil(n / 10)] for the length of a queue: the float quotient is exact
    enough for the ceiling to be the integer one below 2^49 songs. *)
Definition ceil_div10 (n : Z) : Z := (n + 9) / 10.

(** [sys.maxsize] of a 64-bit Python. *)
Definition maxsize : Z := 2 ^ 63 - 1.

(** [islice(q, start, stop)]: bounds below 0 or above [sys.maxsize] are
    refused when the slice is built. *)
Definition islice (q : list Song) (start stop : Z) : M (list Song) :=
  if bool_decide (start < 0) || bool_decide (stop < 0)
     || bool_decide (start > maxsize) || bool_decide (stop > maxsize) then
    raise (OtherError "ValueError")
  else ret (take (Z.to_nat (stop - start)) (drop (Z.to_nat start) q)).

Definition newline : string := String (Ascii.ascii_of_nat 10) "".
Definition tab : string := String (Ascii.ascii_of_nat 9) "".

(** The indentation that the triple-quoted string of the source carries
    into its second, third and fourth line. *)
Definition margin : string := "                           ".

(** One line of the listing: [num] is the index that [enumerate] gives. *)
Definition queue_line (seconds_to_str : Z → string) (page : Z) (num : nat)
    (song : Song) : string :=
  pretty (10 * page + Z.of_nat num + 1) +:+ ". " +:+ artist song +:+ " - **"
  +:+ title song +:+ "**" +:+ tab +:+ "[" +:+ seconds_to_str (duration song)
  +:+ "]".

(** [queue_command]; [seconds_to_str] is the method of the base class. *)
Definition queue_command (seconds_to_str : Z → string)
    (interaction : Interaction) (page : Z) : M unit :=
  len ← Queue_length interaction;
  let max_page := ceil_div10 len in
  length ← Queue_length interaction;
  (if (bool_decide (1 > page) || bool_decide (page > max_page))
      && bool_decide (max_page ≠ 0)
   then emit (send_error ["Out of queue bounds"]) else ret tt);;
  np ← gets now_playing;
  let content :=
    match np with
    | Some s => ["Now playing: " +:+ artist s +:+ " - **" +:+ title s +:+ "**"; ""]
    | None => []
    end in
  let page := page - 1 in
  lp ← gets loop;
  let content :=
    if bool_decide (lp > 0) then
      content ++ ["Looping " +:+ (if bool_decide (lp = 1) then "queue" else "track")]
    else content in
  content ← (if bool_decide (length > 0) then
               d ← Queue_duration interaction;
               let content :=
                 content ++
                 ["Remaining time - " +:+ seconds_to_str d +:+ newline
                  +:+ margin +:+ "Pages - " +:+ pretty (page + 1) +:+ "/"
                  +:+ pretty max_page +:+ newline
                  +:+ margin +:+ newline
                  +:+ margin +:+ "Next:"] in
               q ← Queue_get interaction;
               slice ← islice q (10 * page) (10 * (page + 1));
               ret (content ++ imap (queue_line seconds_to_str page) slice)
             else ret content);
  let content :=
    if bool_decide (length = 0) then content ++ ["_Queue empty_"]
    else content in
  emit (send_answer ("🎹 Queue (" +:+ pretty length +:+ " songs remaining)")
          content).

(** [l[:n]] of Python: a negative [n] counts from the end. *)
Definition slice_to {A} (n : Z) (l : list A) : list A :=
  if bool_decide (0 ≤ n) then take (Z.to_nat n) l
  else take (Z.to_nat (Z.of_nat (length l) + n)) l.

(** The name of an autocomplete choice, as [query_autocomplete] builds it
    for songs (with the duration as suffix) and for albums (with the number
    of songs): names over 100 characters are cut and marked with three
    dots. A Python string is a list of characters; [dot] is ["."]. *)
Definition choice_name {A} (dot : A) (res suffix : list A) : list A :=
  if bool_decide (Z.of_nat (length res) + Z.of_nat (length suffix) > 100) then
    slice_to (97 - Z.of_nat (length suffix)) res ++ [dot; dot; dot] ++ suffix
  else res ++ suffix.

(** ** Vocabulary of the further properties *)

(** Appending the songs of a list, one call of [Queue.append] each. *)
Fixpoint appends (interaction : Interaction) (l : list Song) : M unit :=
  match l with
  | [] => ret tt
  | s :: l' => Queue_append interaction s;; appends interaction l'
  end.

(** [n] calls of [Queue.pop], with what each one returned. *)
Fixpoint pops (interaction : Interaction) (n : nat) : M (list (option Song)) :=
  match n with
  | O => ret []
  | S n' =>
      s ← Queue_pop interaction;
      rest ← pops interaction n';
      ret (s :: rest)
  end.

(** The songs that the queue listing shows on a page. *)
Definition page_of (q : list Song) (page : Z) : list Song :=
  take 10 (drop (Z.to_nat (10 * (page - 1))) q).

(** The key of a guild is present in the dict. *)
Definition has_entry (k : string) (c : QueueCog) : Prop :=
  is_Some (dict c !! k).

(** Entries of the dict are kept. *)
Definition keeps_entry (k : string) : relation QueueCog :=
  λ c c', has_entry k c → has_entry k c'.

(** A cog with queues for guild 1 and guild 2. *)
Definition cog_two_guilds (q1 q2 : list Song) (np : option Song) (lp : Z)
    (skip_flag : bool) : QueueCog :=
  {| queue := mkQueue {[ "1" := q1; "2" := q2 ]}; now_playing := np;
     loop := lp; skip_next_autoplay := skip_flag |}.

(** An interaction without a guild (a direct message). *)
Definition no_guild : Interaction :=
  {| guild := None; user := User |}.

(** A member in voice channel 7 of guild 1, where the bot is not connected. *)
Definition guild1_unconnected : Interaction :=
  {| guild := Some (mkGuild 1 None);
     user := Member (Some (mkVoiceState (Some 7))) |}.

(** A paused voice client in guild 1. *)
Definition guild1_paused : Interaction :=
  {| guild := Some (mkGuild 1 (Some (mkVoiceClient 7 false true)));
     user := Member (Some (mkVoiceState (Some 7))) |}.

(** Durations as plain seconds, for the examples of the listing. *)
Definition seconds_plain (n : Z) : string := pretty n +:+ "s".

(** The lines of the listing that come before the queue itself: the song
    playing and the loop mode. *)
Definition listing_lead (c : QueueCog) : list string :=
  match now_playing c with
  | Some s => ["Now playing: " +:+ artist s +:+ " - **" +:+ title s +:+ "**"; ""]
  | None => []
  end
  ++ (if bool_decide (loop c > 0) then
        ["Looping " +:+ (if bool_decide (loop c = 1) then "queue" else "track")]
      else []).

(** The line that heads the songs of a page. *)
Definition listing_header (seconds_to_str : Z → string) (d page max_page : Z)
    : string :=
  "Remaining time - " +:+ seconds_to_str d +:+ newline
  +:+ margin +:+ "Pages - " +:+ pretty page +:+ "/" +:+ pretty max_page
  +:+ newline +:+ margin +:+ newline +:+ margin +:+ "Next:".

Definition listing_title (len : Z) : string :=
  "🎹 Queue (" +:+ pretty len +:+ " songs remaining)".

(** The total duration of a list of songs. *)
Definition total_duration (q : list Song) : Z :=
  foldr (λ song acc, duration song + acc) 0 q.

(** ** The play command *)

(** What the code reads from the songs and albums that the Subsonic client
    returns. The fields have the types that [Song] gives to what is copied
    from them; [song.title], [album.name] and [album.songs] are the ones
    that the code tests against [None]. [sub_artists] holds the names of
    [song.artists]. *)
Record SubsonicSong := mkSubsonicSong {
  sub_id : string;
  sub_title : option string;
  sub_artists : list string;
  sub_duration : Z
}.

Record SubsonicAlbum := mkSubsonicAlbum {
  album_name : option string;
  album_songs : option (list SubsonicSong)
}.

(** [self.subsonic.browsing]: each lookup returns what it found, or [None],
    or raises. *)
Record Subsonic := mkSubsonic {
  get_song : string → outcome (option SubsonicSong);
  get_album : string → outcome (option SubsonicAlbum)
}.

(** A call to the outside that returns or raises and leaves the cog. *)
Definition lift {A} (o : outcome A) : M A := λ c, mkRun c [] o.

(** The character [:]. *)
Definition colon : Ascii.ascii := Ascii.ascii_of_nat 58.

(** [s.split(sep)] for a separator of one character. *)
Fixpoint split_on (sep : Ascii.ascii) (s : string) : list string :=
  match s with
  | EmptyString => [""]
  | String a s' =>
      if Ascii.eqb a sep then "" :: split_on sep s'
      else match split_on sep s' with
           | x :: rest => String a x :: rest
           | [] => [String a ""]
           end
  end.

(** [Song(song.id, song.title, song.artists[0].name, song.duration)], for a
    song whose title [t] has been found not to be [None]. *)
Definition to_Song (song : SubsonicSong) (t : string) : M Song :=
  match sub_artists song with
  | [] => raise IndexError
  | a :: _ => ret (mkSong (sub_id song) t a (sub_duration song))
  end.

(** The loop of the album branch: songs without a title are passed over,
    the others counted and appended. Returns [songs_added]. *)
Fixpoint append_album (interaction : Interaction) (l : list SubsonicSong)
    (songs_added : Z) : M Z :=
  match l with
  | [] => ret songs_added
  | song :: rest =>
      match sub_title song with
      | None => append_album interaction rest songs_added
      | Some t =>
          let songs_added := songs_added + 1 in
          s ← to_Song song t;
          Queue_append interaction s;;
          append_album interaction rest songs_added
      end
  end.

(** Once [get_voice_client] has returned a voice client, it is the voice
    client of the guild: [interaction.guild.voice_client] is read again by
    [play_queue]. *)
Definition with_voice_client (interaction : Interaction) (vc : VoiceClient)
    : Interaction :=
  {| guild := match guild interaction with
              | Some g => Some (mkGuild (guild_id g) (Some vc))
              | None => None
              end;
     user := user interaction |}.

(** The text under the title of the answer of the play command. *)
Definition added_line (name : string) (songs_added : Z) : string :=
  "**" +:+ name +:+ "**"
  +:+ (if bool_decide (songs_added > 0) then
         " (" +:+ pretty songs_added +:+ " songs added)"
       else "").

(** The command [play]; the name [play] is taken by the field of [World].
    The branches of the [match] give [None] where the source returns, and
    [playing_element_name] with [songs_added] where it goes on. *)
Definition play_command (sub : Subsonic) (w : World)
    (interaction : Interaction) (query : string) : M unit :=
  vc ← get_voice_client w interaction true;
  match vc with
  | None => ret tt
  | Some vc =>
      let interaction := with_voice_client interaction vc in
      match split_on colon query with
      | [choice; value] =>
          len ← Queue_length interaction;
          np ← gets now_playing;
          let first_play := bool_decide (len = 0) && bool_decide (np = None) in
          found ←
            (if String.eqb choice "song" then
               song ← lift (get_song sub value);
               match song with
               | None => emit (send_error ["No song found"]);; ret None
               | Some song =>
                   match sub_title song with
                   | None =>
                       emit (send_error
                               ["The song is missing the required metadata: "
                                +:+ query]);;
                       ret None
                   | Some t =>
                       s ← to_Song song t;
                       Queue_append interaction s;;
                       ret (Some (t, 0))
                   end
               end
             else if String.eqb choice "album" then
               album ← lift (get_album sub value);
               match album with
               | None => emit (send_error ["No album found"]);; ret None
               | Some album =>
                   match album_songs album with
                   | None =>
                       emit (send_error
                               ["The album is missing the required metadata: "
                                +:+ query]);;
                       ret None
                   | Some l =>
                       songs_added ← append_album interaction l 0;
                       ret (Some (default "" (album_name album), songs_added))
                   end
               end
             else emit (send_error ["No songs found"]);; ret None);
          match found with
          | None => ret tt
          | Some (name, songs_added) =>
              emit (send_answer
                      (if first_play then "🎵 Now playing!"
                       else "🎧 Added to the queue")
                      [added_line name songs_added]);;
              if negb (is_playing vc) then play_queue w interaction None
              else ret tt
          end
      | _ => raise (OtherError "ValueError")
      end
  end.

(** Every operation of the cog that is embedded here: those of [command],
    and the commands play, leave and queue with what they take from the
    outside. *)
Inductive operation :=
| op_command (w : World) (cmd : command)
| op_play (sub : Subsonic) (w : World) (query : string)
| op_leave (disconnect : option exn)
| op_queue (seconds_to_str : Z → string) (page : Z).

Definition run_operation (interaction : Interaction) (op : operation)
    : M unit :=
  match op with
  | op_command w cmd => run_command w interaction cmd
  | op_play sub w query => play_command sub w interaction query
  | op_leave disconnect => leave disconnect interaction
  | op_queue seconds_to_str page => queue_command seconds_to_str interaction page
  end.

(** A Subsonic server that knows the songs A and B and one album. *)
Definition sub_A : SubsonicSong := mkSubsonicSong "a1" (Some "Alpha") ["Ann"] 180.
Definition sub_B : SubsonicSong := mkSubsonicSong "b2" (Some "Beta") ["Bob"] 200.
Definition sub_untitled : SubsonicSong := mkSubsonicSong "u0" None ["Una"] 60.

Definition subsonic_demo : Subsonic :=
  {| get_song := λ id,
       if String.eqb id "a1" then Return (Some sub_A)
       else if String.eqb id "b2" then Return (Some sub_B)
       else Return None;
     get_album := λ id,
       if String.eqb id "al" then
         Return (Some (mkSubsonicAlbum (Some "Letters")
                         (Some [sub_A; sub_untitled; sub_B])))
       else Return None |}.

(** The [Song] made of a Subsonic song that has a title and an artist. *)
Definition song_of (song : SubsonicSong) : option Song :=
  match sub_title song, sub_artists song with
  | Some t, a :: _ => Some (mkSong (sub_id song) t a (sub_duration song))
  | _, _ => None
  end.

(** The cog after the reset that [get_voice_client] does before it
    connects: the queue of the guild empty, nothing playing, no loop. *)
Definition reset (k : string) (c : QueueCog) : QueueCog :=
  with_loop (with_now_playing (set_songs k [] c) None) 0.

(** A Subsonic song that the code can turn into a [Song] or pass over: one
    without a title, or with at least one artist. *)
Definition convertible (song : SubsonicSong) : bool :=
  match sub_title song, sub_artists song with
  | Some _, [] => false
  | _, _ => true
  end.

(** A titled song that lists no artist. *)
Definition sub_no_artist : SubsonicSong := mkSubsonicSong "n9" (Some "Nobody") [] 90.

(** A server whose album "br" has such a song in second place. *)
Definition subsonic_broken : Subsonic :=
  {| get_song := λ _, Return None;
     get_album := λ id,
       if String.eqb id "br" then
         Return (Some (mkSubsonicAlbum None (Some [sub_A; sub_no_artist; sub_B])))
       else Return None |}.

(** * Properties *)

(** ** The monad and the dict *)

Ltac unfold_M :=
  unfold mbind, mret, M_bind, M_ret, bind, ret, raise, gets, modify, emit in *.

Lemma bind_run {A B} (m : M A) (k : A → M B) c c' tr a :
  m c = mkRun c' tr (Return a) →
  (m ≫= k) c = prepend tr (k a c').
Proof. intros Hm. unfold_M. by rewrite Hm. Qed.

Lemma prepend_nil {A} (r : run A) : prepend [] r = r.
Proof. by destruct r. Qed.

Lemma final_prepend {A} tr (r : run A) : final (prepend tr r) = final r.
Proof. by destruct r. Qed.

Lemma with_dict_dict c : with_dict c (dict c) = c.
Proof. by destruct c as [[d] ? ? ?]. Qed.

Lemma ensure_present k c : is_Some (dict c !! k) → ensure k c = c.
Proof.
  intros [q Hq]. unfold ensure, set_songs, songs. rewrite Hq. simpl.
  rewrite insert_id by done. apply with_dict_dict.
Qed.

Lemma ensure_absent k c : dict c !! k = None → ensure k c = set_songs k [] c.
Proof. intros Hq. unfold ensure, songs. by rewrite Hq. Qed.

Lemma songs_set_songs k q c : songs (set_songs k q c) k = q.
Proof. unfold songs, set_songs, dict. simpl. by rewrite lookup_insert_eq. Qed.

Lemma dict_set_songs_ne k k' q c :
  k ≠ k' → dict (set_songs k q c) !! k' = dict c !! k'.
Proof. intros. unfold set_songs, dict. simpl. by rewrite lookup_insert_ne. Qed.

Lemma songs_set_songs_ne k k' q c :
  k ≠ k' → songs (set_songs k q c) k' = songs c k'.
Proof. intros. unfold songs. by rewrite dict_set_songs_ne. Qed.

Lemma set_songs_twice k q q' c :
  set_songs k q (set_songs k q' c) = set_songs k q c.
Proof. unfold set_songs, with_dict, dict. simpl. by rewrite insert_insert_eq. Qed.

Lemma songs_ensure k k' c : songs (ensure k c) k' = songs c k'.
Proof.
  unfold ensure. destruct (decide (k = k')) as [->|Hne].
  - apply songs_set_songs.
  - by apply songs_set_songs_ne.
Qed.

Lemma set_songs_ensure k q c : set_songs k q (ensure k c) = set_songs k q c.
Proof. apply set_songs_twice. Qed.

Lemma ensure_set_songs k q c : ensure k (set_songs k q c) = set_songs k q c.
Proof. unfold ensure. by rewrite songs_set_songs, set_songs_twice. Qed.

(** ** The methods of [Queue], as equations on runs *)

Lemma check_guild_run i k c :
  guild_key i = Some k →
  _check_guild i c = mkRun (ensure k c) [] (Return (Some k)).
Proof.
  unfold guild_key, _check_guild. destruct (guild i) as [g|]; [|done].
  intros [= <-]. unfold queue_setitem, set_queue_dict. unfold_M. simpl.
  destruct (decide _) as [H|H]; simpl.
  - by rewrite ensure_present.
  - rewrite ensure_absent; [done|]. by apply eq_None_not_Some.
Qed.

Lemma check_guild_none i c :
  guild_key i = None → _check_guild i c = mkRun c [] (Return None).
Proof. unfold guild_key, _check_guild. by destruct (guild i). Qed.

Lemma queue_getitem_ensure k c :
  queue_getitem k (ensure k c) = mkRun (ensure k c) [] (Return (songs c k)).
Proof.
  unfold queue_getitem, ensure, set_songs, with_dict, dict. unfold_M. simpl.
  by rewrite lookup_insert_eq.
Qed.

Lemma queue_setitem_run k q c :
  queue_setitem k q c = mkRun (set_songs k q c) [] (Return tt).
Proof. reflexivity. Qed.

Lemma Queue_get_run i k c :
  guild_key i = Some k →
  Queue_get i c = mkRun (ensure k c) [] (Return (songs c k)).
Proof.
  intros Hk. unfold Queue_get.
  rewrite (bind_run _ _ _ _ _ _ (check_guild_run _ _ _ Hk)).
  by rewrite queue_getitem_ensure.
Qed.

Lemma Queue_length_run i k c :
  guild_key i = Some k →
  Queue_length i c = mkRun (ensure k c) [] (Return (Z.of_nat (length (songs c k)))).
Proof.
  intros Hk. unfold Queue_length.
  rewrite (bind_run _ _ _ _ _ _ (check_guild_run _ _ _ Hk)).
  by rewrite (bind_run _ _ _ _ _ _ (queue_getitem_ensure _ _)).
Qed.

Lemma Queue_length_none i c :
  guild_key i = None → Queue_length i c = mkRun c [] (Return 0).
Proof.
  intros Hk. unfold Queue_length.
  by rewrite (bind_run _ _ _ _ _ _ (check_guild_none _ _ Hk)).
Qed.

Lemma Queue_pop_cons i k c s q :
  guild_key i = Some k → songs c k = s :: q →
  Queue_pop i c = mkRun (set_songs k q c) [] (Return (Some s)).
Proof.
  intros Hk Hq. unfold Queue_pop.
  rewrite (bind_run _ _ _ _ _ _ (check_guild_run _ _ _ Hk)).
  rewrite (bind_run _ _ _ _ _ _ (queue_getitem_ensure _ _)).
  rewrite Hq. rewrite (bind_run _ _ _ _ _ _ (queue_setitem_run _ _ _)).
  simpl. by rewrite set_songs_ensure.
Qed.

Lemma Queue_pop_nil i k c :
  guild_key i = Some k → songs c k = [] →
  Queue_pop i c = mkRun (ensure k c) [] (Raise IndexError).
Proof.
  intros Hk Hq. unfold Queue_pop.
  rewrite (bind_run _ _ _ _ _ _ (check_guild_run _ _ _ Hk)).
  rewrite (bind_run _ _ _ _ _ _ (queue_getitem_ensure _ _)).
  by rewrite Hq.
Qed.

Lemma Queue_pop_none i c :
  guild_key i = None → Queue_pop i c = mkRun c [] (Return None).
Proof.
  intros Hk. unfold Queue_pop.
  by rewrite (bind_run _ _ _ _ _ _ (check_guild_none _ _ Hk)).
Qed.

Lemma Queue_append_run i k c s :
  guild_key i = Some k →
  Queue_append i s c = mkRun (set_songs k (songs c k ++ [s]) c) [] (Return tt).
Proof.
  intros Hk. unfold Queue_append.
  rewrite (bind_run _ _ _ _ _ _ (check_guild_run _ _ _ Hk)).
  rewrite (bind_run _ _ _ _ _ _ (queue_getitem_ensure _ _)).
  rewrite queue_setitem_run. simpl. by rewrite set_songs_ensure.
Qed.

Lemma Queue_clear_run i k c :
  guild_key i = Some k →
  Queue_clear i c = mkRun (set_songs k [] c) [] (Return tt).
Proof.
  intros Hk. unfold Queue_clear.
  rewrite (bind_run _ _ _ _ _ _ (check_guild_run _ _ _ Hk)).
  rewrite queue_setitem_run. simpl. by rewrite set_songs_ensure.
Qed.

(** ** What a run leaves as it was *)

Global Instance same_at_preorder k : PreOrder (same_at k).
Proof.
  split; [by intros c|]. intros c1 c2 c3 H1 H2. unfold same_at in *. congruence.
Qed.

Section preservation.
Context (R : relation QueueCog) `{!PreOrder R}.

Lemma preserves_ret {A} (a : A) : preserves R (mret a).
Proof. intros c. simpl. reflexivity. Qed.

Lemma preserves_raise {A} e : preserves R (@raise A e).
Proof. intros c. simpl. reflexivity. Qed.

Lemma preserves_gets {A} (f : QueueCog → A) : preserves R (gets f).
Proof. intros c. simpl. reflexivity. Qed.

Lemma preserves_emit e : preserves R (emit e).
Proof. intros c. simpl. reflexivity. Qed.

Lemma preserves_bind {A B} (m : M A) (k : A → M B) :
  preserves R m → (∀ a, preserves R (k a)) → preserves R (m ≫= k).
Proof.
  intros Hm Hk c. unfold_M. specialize (Hm c).
  destruct (m c) as [c1 tr1 [a|e]]; simpl in *; [|done].
  rewrite final_prepend. etrans; [exact Hm|apply Hk].
Qed.

Lemma preserves_try_except {A} (m : M A) h :
  preserves R m → (∀ e k, h e = Some k → preserves R k) →
  preserves R (try_except m h).
Proof.
  intros Hm Hh c. unfold try_except. specialize (Hm c).
  destruct (m c) as [c1 tr1 [a|e]]; simpl in *; [done|].
  destruct (h e) as [k|] eqn:He; simpl; [|done].
  rewrite final_prepend. etrans; [exact Hm|by eapply Hh].
Qed.

Lemma preserves_and_then a b : preserves R b → preserves R (and_then a b).
Proof. intros Hb. destruct a; simpl; [done|apply preserves_ret]. Qed.

(** A method that starts with [_check_guild]: it is enough to look at
    the rest of the method in the state where the entry exists. *)
Lemma preserves_check_guild {A} i (f : option string → M A) :
  (∀ k c, guild_key i = Some k → R c (ensure k c)) →
  (∀ id, guild_key i = id → preserves R (f id)) →
  preserves R (_check_guild i ≫= f).
Proof.
  intros He Hf c. destruct (guild_key i) as [k|] eqn:Hk.
  - rewrite (bind_run _ _ _ _ _ _ (check_guild_run _ _ _ Hk)).
    rewrite final_prepend. etrans; [by apply He|by apply Hf].
  - rewrite (bind_run _ _ _ _ _ _ (check_guild_none _ _ Hk)).
    rewrite final_prepend. by apply Hf.
Qed.
End preservation.

Create HintDb preserve.

#[local] Hint Resolve preserves_ret preserves_raise preserves_gets
  preserves_emit : preserve.

Ltac preserve_step :=
  first
    [ solve [eauto 3 with preserve typeclass_instances]
    | apply preserves_and_then; [apply _|]
    | apply preserves_bind; [apply _| |intros ?]
    | apply preserves_try_except; [apply _| |intros ? ? ?]
    | match goal with
      | |- preserves _ (match ?x with _ => _ end) => destruct x eqn:?
      | H : match ?x with _ => _ end = Some _ |- _ =>
          destruct x; try discriminate H; simplify_eq
      end ].

Ltac preserve := repeat preserve_step.

(** *** The other guilds' entries *)

Lemma same_at_ensure k k' c : k' ≠ k → same_at k c (ensure k' c).
Proof. intros Hne. unfold same_at, ensure. by rewrite dict_set_songs_ne. Qed.

Lemma same_at_queue_setitem k id q :
  id ≠ k → preserves (same_at k) (queue_setitem id q).
Proof. intros Hne c. rewrite queue_setitem_run. simpl. unfold same_at. by rewrite dict_set_songs_ne. Qed.

Lemma same_at_queue_getitem k id : preserves (same_at k) (queue_getitem id).
Proof. unfold queue_getitem. preserve. Qed.

Lemma same_at_set_now_playing k s : preserves (same_at k) (set_now_playing s).
Proof. by intros c. Qed.

Lemma same_at_set_loop k n : preserves (same_at k) (set_loop n).
Proof. by intros c. Qed.

Lemma same_at_set_skip k b : preserves (same_at k) (set_skip_next_autoplay b).
Proof. by intros c. Qed.

#[local] Hint Resolve same_at_queue_setitem same_at_queue_getitem same_at_set_now_playing
  same_at_set_loop same_at_set_skip : preserve.

(** The shape shared by the methods of [Queue]. *)
Lemma same_at_method {A} k i (f : option string → M A) :
  guild_key i ≠ Some k →
  (∀ id, id ≠ k → preserves (same_at k) (f (Some id))) →
  preserves (same_at k) (f None) →
  preserves (same_at k) (_check_guild i ≫= f).
Proof.
  intros Hne Hsome Hnone. apply preserves_check_guild; [apply _| |].
  - intros k' c Hk. apply same_at_ensure. congruence.
  - intros [id|] Hid; [|done]. apply Hsome. congruence.
Qed.

Lemma same_at_check_guild k i :
  guild_key i ≠ Some k → preserves (same_at k) (_check_guild i).
Proof.
  intros Hne c. destruct (guild_key i) as [k'|] eqn:Hk.
  - rewrite (check_guild_run _ _ _ Hk). apply same_at_ensure. congruence.
  - by rewrite (check_guild_none _ _ Hk).
Qed.

Lemma same_at_Queue_get k i :
  guild_key i ≠ Some k → preserves (same_at k) (Queue_get i).
Proof. intros. apply same_at_method; [done| |]; intros; preserve. Qed.

Lemma same_at_Queue_pop k i :
  guild_key i ≠ Some k → preserves (same_at k) (Queue_pop i).
Proof.
  intros. apply same_at_method; [done| |]; intros; preserve. Qed.

Lemma same_at_Queue_append k i s :
  guild_key i ≠ Some k → preserves (same_at k) (Queue_append i s).
Proof.
  intros. apply same_at_method; [done| |]; intros; preserve. Qed.

Lemma same_at_Queue_length k i :
  guild_key i ≠ Some k → preserves (same_at k) (Queue_length i).
Proof. intros. apply same_at_method; [done| |]; intros; preserve. Qed.

Lemma same_at_Queue_shuffle k i sample :
  guild_key i ≠ Some k → preserves (same_at k) (Queue_shuffle sample i).
Proof.
  intros. apply same_at_method; [done| |]; intros; preserve. Qed.

Lemma same_at_Queue_duration k i :
  guild_key i ≠ Some k → preserves (same_at k) (Queue_duration i).
Proof. intros. apply same_at_method; [done| |]; intros; preserve. Qed.

Lemma same_at_Queue_clear k i :
  guild_key i ≠ Some k → preserves (same_at k) (Queue_clear i).
Proof.
  intros. apply same_at_method; [done| |]; intros; preserve. Qed.

#[local] Hint Resolve same_at_check_guild same_at_Queue_get same_at_Queue_pop
  same_at_Queue_append same_at_Queue_length same_at_Queue_shuffle
  same_at_Queue_duration same_at_Queue_clear : preserve.

Lemma same_at_get_voice_client k w i connect_arg :
  guild_key i ≠ Some k →
  preserves (same_at k) (get_voice_client w i connect_arg).
Proof. intros. unfold get_voice_client. preserve. Qed.

Lemma same_at_subsonic_download k w id use_stream :
  preserves (same_at k) (subsonic_download w id use_stream).
Proof. unfold subsonic_download. preserve. Qed.

#[local] Hint Resolve same_at_get_voice_client same_at_subsonic_download
  : preserve.

Lemma same_at_play_song k w i s : preserves (same_at k) (play_song w i s).
Proof. unfold play_song. preserve. Qed.

#[local] Hint Resolve same_at_play_song : preserve.

Lemma same_at_play_queue k w i exception :
  guild_key i ≠ Some k → preserves (same_at k) (play_queue w i exception).
Proof. intros. unfold play_queue. preserve. Qed.

#[local] Hint Resolve same_at_play_queue : preserve.

Lemma same_at_what_value k what : preserves (same_at k) (what_value what).
Proof. unfold what_value. preserve. Qed.

#[local] Hint Resolve same_at_what_value : preserve.

Lemma same_at_run_command k w i cmd :
  guild_key i ≠ Some k → preserves (same_at k) (run_command w i cmd).
Proof.
  intros. destruct cmd; simpl;
    unfold play_next_callback, stop, pause, skip, clear, resume, loop_command,
      shuffle_command, cog_queue_getitem_last;
    preserve.
Qed.

(** ** [get_voice_client] without connecting *)

Lemma joined_guild_key i g vc :
  joined i = Some (g, vc) → guild_key i = Some (str (guild_id g)).
Proof.
  unfold joined, guild_key. destruct (user i) as [|v]; [done|].
  destruct (user_channel v); [|done]. destruct (guild i) as [g'|]; [|done].
  destruct (voice_client g'); [|done]. case_decide; [done|]. by intros [= ->].
Qed.

Lemma joined_guild i g vc :
  joined i = Some (g, vc) → guild i = Some g ∧ voice_client g = Some vc.
Proof.
  unfold joined. destruct (user i) as [|v]; [done|].
  destruct (user_channel v); [|done]. destruct (guild i) as [g'|]; [|done].
  destruct (voice_client g') eqn:Hvc; [|done]. case_decide; [done|].
  by intros [= -> ->].
Qed.

Lemma get_voice_client_joined w i c g vc :
  joined i = Some (g, vc) →
  get_voice_client w i false c = mkRun c [] (Return (Some vc)).
Proof.
  unfold joined, get_voice_client. destruct (user i) as [|v]; [done|].
  destruct (user_channel v); [|done]. destruct (guild i) as [g'|]; [|done].
  destruct (voice_client g'); [|done]. case_decide; [done|]. by intros [= _ ->].
Qed.

Lemma get_voice_client_not_joined w i c :
  joined i = None →
  ∃ msg, get_voice_client w i false c = mkRun c [send_error [msg]] (Return None).
Proof.
  unfold joined, get_voice_client. destruct (user i) as [|v]; [by eexists|].
  destruct (user_channel v); [|by eexists].
  destruct (guild i) as [g'|]; [|by eexists].
  destruct (voice_client g'); [|by eexists]. case_decide; [by eexists|done].
Qed.

(** ** [play_song] and [play_queue], as equations on runs *)

Lemma play_song_run w i s c :
  play_song w i s c =
  match resolve_error w s with
  | Some e => mkRun c (downloads w s) (Raise e)
  | None =>
      match guild i with
      | None => mkRun c (downloads w s) (Return tt)
      | Some g =>
          match voice_client g with
          | None => mkRun c (downloads w s) (Return tt)
          | Some vc =>
              match play w with
              | Some e =>
                  mkRun c (downloads w s ++ [ev_play (guild_id g) s]) (Raise e)
              | None =>
                  if source w then
                    mkRun (with_now_playing c (Some s))
                      (downloads w s ++
                       [ev_play (guild_id g) s; ev_set_source (guild_id g) s])
                      (Return tt)
                  else
                    mkRun c (downloads w s ++ [ev_play (guild_id g) s])
                      (Return tt)
              end
          end
      end
  end.
Proof.
  unfold play_song, resolve_error, downloads, try_except, subsonic_download.
  unfold_M.
  destruct (is_file w (Song_id s)); simpl.
  - destruct (guild i) as [g|]; [|done]. destruct (voice_client g); [|done].
    simpl. destruct (play w); [done|]. by destruct (source w).
  - destruct (download w (Song_id s) false) as [e|]; simpl.
    + destruct e; simpl; try done.
      destruct (download w (Song_id s) true); simpl; [done|].
      destruct (guild i) as [g|]; [|done]. destruct (voice_client g); [|done].
      simpl. destruct (play w); [done|]. by destruct (source w).
    + destruct (guild i) as [g|]; [|done]. destruct (voice_client g); [|done].
      simpl. destruct (play w); [done|]. by destruct (source w).
Qed.

Lemma play_queue_exception w i e c :
  play_queue w i (Some e) c = mkRun c [] (Raise e).
Proof. reflexivity. Qed.

Lemma Queue_length_checked i c :
  Queue_length i c =
  mkRun (checked i c) []
    (Return match guild_key i with
            | Some k => Z.of_nat (length (songs c k))
            | None => 0
            end).
Proof.
  unfold checked. destruct (guild_key i) as [k|] eqn:Hk.
  - by apply Queue_length_run.
  - by apply Queue_length_none.
Qed.

Lemma loop_checked i c : loop (checked i c) = loop c.
Proof. unfold checked. by destruct (guild_key i). Qed.

Lemma now_playing_checked i c : now_playing (checked i c) = now_playing c.
Proof. unfold checked. by destruct (guild_key i). Qed.

Lemma skip_checked i c :
  skip_next_autoplay (checked i c) = skip_next_autoplay c.
Proof. unfold checked. by destruct (guild_key i). Qed.

Lemma songs_checked i c k : songs (checked i c) k = songs c k.
Proof. unfold checked. destruct (guild_key i); [apply songs_ensure|done]. Qed.

Lemma play_queue_nothing w i c :
  default [] (songs c <$> guild_key i) = [] → loop c < 2 →
  play_queue w i None c = mkRun (checked i c) [] (Return tt).
Proof.
  intros Hq Hlp. unfold play_queue.
  rewrite (bind_run _ _ _ _ _ _ (Queue_length_checked _ _)). unfold_M. simpl.
  rewrite loop_checked.
  rewrite (bool_decide_eq_true_2 (loop c < 2)) by done.
  destruct (guild_key i) as [k|]; simpl in *; [|done].
  by rewrite Hq.
Qed.

Lemma play_queue_pop w i k c s q :
  guild_key i = Some k → songs c k = s :: q → loop c < 2 →
  play_queue w i None c =
  play_song w i s (set_songs k (if bool_decide (loop c = 1) then q ++ [s] else q) c).
Proof.
  intros Hk Hq Hlp. unfold play_queue.
  rewrite (bind_run _ _ _ _ _ _ (Queue_length_checked _ _)).
  unfold checked. rewrite Hk, Hq. simpl.
  unfold_M. simpl.
  rewrite (bool_decide_eq_true_2 (loop c < 2)) by done. simpl.
  assert (Hs : songs (ensure k c) k = s :: q) by (by rewrite songs_ensure).
  rewrite (Queue_pop_cons _ _ _ _ _ Hk Hs). simpl.
  rewrite set_songs_ensure.
  destruct (bool_decide (loop c = 1)); simpl.
  - rewrite (Queue_append_run _ _ _ _ Hk). simpl.
    rewrite songs_set_songs, set_songs_twice.
    by rewrite !prepend_nil.
  - by rewrite !prepend_nil.
Qed.

Lemma play_queue_track w i c :
  2 ≤ loop c →
  play_queue w i None c =
  match now_playing c with
  | Some s => play_song w i s (checked i c)
  | None => mkRun (checked i c) [] (Return tt)
  end.
Proof.
  intros Hlp. unfold play_queue.
  rewrite (bind_run _ _ _ _ _ _ (Queue_length_checked _ _)). unfold_M. simpl.
  rewrite loop_checked.
  rewrite (bool_decide_eq_false_2 (loop c < 2)) by lia.
  rewrite (bool_decide_eq_false_2 (loop c = 1)) by lia.
  rewrite andb_false_r. simpl. rewrite now_playing_checked.
  destruct (now_playing c); simpl; [|done]. by rewrite !prepend_nil.
Qed.

Lemma play_next_callback_skip w i e c :
  skip_next_autoplay c = true →
  play_next_callback w i e c =
  mkRun {| queue := queue c; now_playing := now_playing c; loop := loop c;
           skip_next_autoplay := false |} [] (Return tt).
Proof. intros Hs. unfold play_next_callback. unfold_M. simpl. by rewrite Hs. Qed.

Lemma play_next_callback_go w i e c :
  skip_next_autoplay c = false →
  play_next_callback w i e c = play_queue w i e c.
Proof.
  intros Hs. unfold play_next_callback. unfold_M. simpl. rewrite Hs. simpl.
  by rewrite !prepend_nil.
Qed.

(** ** The commands, as equations on runs *)

(** The loop command asked for the queue ([what.value == 1]). *)
Lemma loop_command_queue w i name c g vc :
  joined i = Some (g, vc) →
  loop_command w i (Choice name 1) c =
  let c1 := ensure (str (guild_id g)) c in
  if decide (songs c (str (guild_id g)) = []) then
    mkRun c1 [send_error ["The queue is empty"]] (Return tt)
  else if decide (loop c = 1) then
    mkRun (with_loop c1 0) [send_answer "🔁 Stopped looping" []] (Return tt)
  else
    match now_playing c with
    | Some _ => mkRun c1 [] (Raise TypeError)
    | None =>
        mkRun (with_loop c1 1) [send_answer "🔂 Now looping current track" []]
          (Return tt)
    end.
Proof.
  intros Hj. pose proof (joined_guild_key _ _ _ Hj) as Hk.
  unfold loop_command.
  rewrite (bind_run _ _ _ _ _ _ (get_voice_client_joined w _ c _ _ Hj)).
  rewrite (bind_run _ _ _ _ _ _ (Queue_length_run _ _ _ Hk)).
  set (k := str (guild_id g)) in *. simpl.
  destruct (songs c k) as [|s q] eqn:Hq; simpl; [reflexivity|].
  unfold_M. simpl.
  destruct (decide (loop c = 1)) as [Hlp|Hlp];
    destruct (now_playing c) as [np|] eqn:Hnp; simpl;
    rewrite ?Hnp; simpl.
  - rewrite (bool_decide_eq_true_2 (1 = loop c)) by done. reflexivity.
  - rewrite (bool_decide_eq_true_2 (1 = loop c)) by done. reflexivity.
  - rewrite (bool_decide_eq_false_2 (1 = loop c)) by done. simpl.
    rewrite Hnp. reflexivity.
  - rewrite (bool_decide_eq_false_2 (1 = loop c)) by done. simpl.
    rewrite Hnp. reflexivity.
Qed.

Lemma stop_run w i c g vc :
  joined i = Some (g, vc) → is_playing vc = true →
  stop w i c =
  mkRun (with_now_playing (with_skip c true) None)
    [ev_stop (guild_id g); send_answer "🛑 Song stopped" []] (Return tt).
Proof.
  intros Hj Hp. destruct (joined_guild _ _ _ Hj) as [Hg _]. unfold stop.
  rewrite (bind_run _ _ _ _ _ _ (get_voice_client_joined w _ c _ _ Hj)).
  rewrite Hp. unfold guild_id_of. rewrite Hg. reflexivity.
Qed.

Lemma clear_run w i c g vc :
  joined i = Some (g, vc) →
  clear w i c =
  mkRun (set_songs (str (guild_id g)) [] c)
    [send_answer "🗑️ Cleared the queue" []] (Return tt).
Proof.
  intros Hj. pose proof (joined_guild_key _ _ _ Hj) as Hk. unfold clear.
  rewrite (bind_run _ _ _ _ _ _ (get_voice_client_joined w _ c _ _ Hj)).
  rewrite (bind_run _ _ _ _ _ _ (Queue_clear_run _ _ _ Hk)). reflexivity.
Qed.

Lemma clear_not_joined w i c :
  joined i = None →
  ∃ msg, clear w i c = mkRun c [send_error [msg]] (Return tt).
Proof.
  intros Hj. destruct (get_voice_client_not_joined w i c Hj) as [msg Hrun].
  exists msg. unfold clear. by rewrite (bind_run _ _ _ _ _ _ Hrun).
Qed.

(** * The claims *)

(** ** C1: what is disjoint between guilds *)

(** C1, as the specification states it, fails: the session state is not kept
    per guild. A stop in guild 1 changes the session state that guild 2
    reads, and it changes what guild 2 does next: the completion callback of
    guild 2 finds the flag that the stop of guild 1 has set and does not play
    the song that waits in the queue of guild 2. *)
Lemma session_state_is_shared :
  let c := {| queue := mkQueue {[ "2" := [song_B] ]};
              now_playing := Some song_A; loop := 0;
              skip_next_autoplay := false |} in
  let c' := final (run_command world_cached guild1_playing cmd_stop c) in
  guild_key guild1_playing ≠ guild_key guild2_idle
  ∧ session_of c' guild2_idle ≠ session_of c guild2_idle
  ∧ played (trace (play_next_callback world_cached guild2_idle None c)) = [song_B]
  ∧ played (trace (play_next_callback world_cached guild2_idle None c')) = [].
Proof. vm_compute. repeat split; discriminate. Qed.

(** C1, amended: the queues are disjoint. Whatever operation runs for an
    interaction, and whether it returns or raises, the entry of every other
    guild in the dict of queues is the one it was, and so are the songs
    queued there. *)
Theorem queues_are_disjoint w i cmd k c :
  guild_key i ≠ Some k →
  let c' := final (run_command w i cmd c) in
  dict c' !! k = dict c !! k ∧ songs c' k = songs c k.
Proof.
  intros Hne c'. assert (H : same_at k c c') by by apply same_at_run_command.
  split; [exact H|]. unfold songs. by rewrite H.
Qed.

Lemma queues_are_disjoint_witness :
  let c := {| queue := mkQueue {[ "1" := [song_A]; "2" := [song_B; song_C] ]};
              now_playing := None; loop := 1; skip_next_autoplay := false |} in
  let c' := final (run_command world_cached guild1_idle (do_play_queue None) c) in
  dict c' !! "2" = dict c !! "2" ∧ songs c' "2" = songs c "2".
Proof.
  apply (queues_are_disjoint world_cached guild1_idle (do_play_queue None) "2").
  vm_compute. discriminate.
Defined.

(** ** C2: [pop] on an empty queue *)

Lemma Queue_pop_empty_raises i k c :
  guild_key i = Some k → songs c k = [] →
  result (Queue_pop i c) = Raise IndexError.
Proof. intros Hk Hq. by rewrite (Queue_pop_nil _ _ _ Hk Hq). Qed.

(** C2: the code does not do what the claim says. [Queue.pop] on the empty
    queue of a guild ends in the [IndexError] of [popleft()]; it does not
    return [None]. The guild is guild 1, its queue exists and is empty. *)
Theorem pop_on_empty_queue_raises :
  Queue_pop guild1_idle (cog_guild1 [] None 0)
  = mkRun (cog_guild1 [] None 0) [] (Raise IndexError).
Proof. vm_compute. reflexivity. Qed.

(** ** C4: an advance with nothing to play *)

(** C4: the code does not do what the claim says. With an empty queue and no
    loop, [play_queue] returns at its first test: nothing is handed to the
    voice client, and [now_playing] still names the song that has ended. *)
Theorem advance_on_empty_queue_keeps_now_playing :
  let c := cog_guild1 [] (Some song_A) 0 in
  play_queue world_cached guild1_idle None c = mkRun c [] (Return tt)
  ∧ play_next_callback world_cached guild1_idle None c = mkRun c [] (Return tt)
  ∧ now_playing c = Some song_A.
Proof. vm_compute. repeat split; reflexivity. Qed.

(** ** C5 and C6: the loop command asked for the queue *)

(** C5: the code does not do what the claim says. Entering the queue loop
    while a song plays evaluates [self.queue[-1]] on the [Queue] object and
    ends in a [TypeError]: nothing is appended and the loop stays off. *)
Theorem loop_queue_while_playing_raises :
  let c := cog_guild1 [song_B] (Some song_A) 0 in
  loop_command world_cached guild1_playing (Choice "Queue" 1) c
  = mkRun c [] (Raise TypeError).
Proof. vm_compute. reflexivity. Qed.

(** The same for every cog: a queue loop asked while a song plays, with a
    queue that is not empty and the queue loop not yet on, raises. *)
Lemma loop_queue_while_playing_raises_always w i name c g vc s :
  joined i = Some (g, vc) → songs c (str (guild_id g)) ≠ [] →
  loop c ≠ 1 → now_playing c = Some s →
  loop_command w i (Choice name 1) c
  = mkRun (ensure (str (guild_id g)) c) [] (Raise TypeError).
Proof.
  intros Hj Hq Hlp Hnp. rewrite (loop_command_queue _ _ _ _ _ _ Hj). simpl.
  rewrite decide_False by done. rewrite decide_False by done. by rewrite Hnp.
Qed.

(** C6, as the specification states it, fails: with an empty queue the
    request for the queue loop is turned down although a song is playing. *)
Lemma loop_queue_rejected_while_playing :
  let c := cog_guild1 [] (Some song_A) 0 in
  let r := loop_command world_cached guild1_playing (Choice "Queue" 1) c in
  now_playing c = Some song_A
  ∧ trace r = [send_error ["The queue is empty"]]
  ∧ loop (final r) = 0.
Proof. vm_compute. repeat split; reflexivity. Qed.

(** C6, amended: a request for the queue loop is turned down with the user
    error "The queue is empty" exactly when the queue of the guild is empty,
    whether a song is playing or not; the cog is then left as it was, but
    for the entry of the guild that [_check_guild] creates. With a queue
    that is not empty no user error is sent. *)
Theorem loop_queue_rejected_iff_empty w i name c g vc :
  joined i = Some (g, vc) →
  let k := str (guild_id g) in
  let r := loop_command w i (Choice name 1) c in
  (songs c k = [] →
     r = mkRun (ensure k c) [send_error ["The queue is empty"]] (Return tt))
  ∧ (songs c k ≠ [] → ∀ e, e ∈ trace r → user_error e = false).
Proof.
  intros Hj k r. unfold r. rewrite (loop_command_queue _ _ _ _ _ _ Hj).
  fold k. simpl. split.
  - intros Hq. by rewrite decide_True.
  - intros Hq e. rewrite decide_False by done.
    destruct (decide (loop c = 1)); [|destruct (now_playing c)]; simpl;
      first [by intros ->%list_elem_of_singleton | by intros ?%elem_of_nil].
Qed.

Lemma loop_queue_rejected_iff_empty_witness :
  let c := cog_guild1 [] (Some song_A) 0 in
  let c2 := cog_guild1 [song_B] None 0 in
  loop_command world_cached guild1_playing (Choice "Queue" 1) c
  = mkRun c [send_error ["The queue is empty"]] (Return tt)
  ∧ ∀ e, e ∈ trace (loop_command world_cached guild1_playing (Choice "Queue" 1) c2) →
         user_error e = false.
Proof.
  split.
  - apply (loop_queue_rejected_iff_empty world_cached guild1_playing "Queue"
             (cog_guild1 [] (Some song_A) 0) _ _ eq_refl).
    reflexivity.
  - apply (loop_queue_rejected_iff_empty world_cached guild1_playing "Queue"
             (cog_guild1 [song_B] None 0) _ _ eq_refl).
    vm_compute. discriminate.
Defined.

(** ** C3: failures during an advance *)

Lemma played_app tr1 tr2 : played (tr1 ++ tr2) = played tr1 ++ played tr2.
Proof. apply omap_app. Qed.

Lemma played_downloads w s : played (downloads w s) = [].
Proof.
  unfold downloads. destruct (is_file w (Song_id s)); [done|].
  destruct (download w (Song_id s) false) as [[]|]; done.
Qed.

Lemma resolves_resolve_error w s :
  resolves w s = true → resolve_error w s = None.
Proof.
  unfold resolves, resolve_error. destruct (is_file w (Song_id s)); [done|].
  simpl. destruct (download w (Song_id s) false) as [[]|]; try done.
  by intros ?%bool_decide_eq_true.
Qed.



Lemma play_song_raise w i s c e :
  result (play_song w i s c) = Raise e →
  final (play_song w i s c) = c ∧ (resolve_error w s = Some e ∨ play w = Some e).
Proof.
  rewrite play_song_run. destruct (resolve_error w s) as [e'|]; simpl.
  { intros [= ->]. auto. }
  destruct (guild i) as [g|]; [|done]. destruct (voice_client g); [|done].
  destruct (play w) as [e'|]; simpl.
  { intros [= ->]. auto. }
  by destruct (source w).
Qed.

Lemma play_song_return w i s c :
  resolve_error w s = None → play w = None →
  result (play_song w i s c) = Return tt.
Proof.
  intros Hr Hp. rewrite play_song_run, Hr, Hp.
  destruct (guild i) as [g|]; [|done]. destruct (voice_client g); [|done].
  by destruct (source w).
Qed.

(** An advance either stops before it has a song, or goes on to
    [play_song]; the session attributes are still untouched at that point. *)
Lemma play_queue_shape w i c :
  (∃ c', play_queue w i None c = mkRun c' [] (Return tt)
         ∧ now_playing c' = now_playing c)
  ∨ (∃ s c', play_queue w i None c = play_song w i s c'
             ∧ now_playing c' = now_playing c).
Proof.
  destruct (decide (loop c < 2)) as [Hlp|Hlp].
  - destruct (guild_key i) as [k|] eqn:Hk.
    + destruct (songs c k) as [|s q] eqn:Hq.
      * left. eexists. split; [apply play_queue_nothing|].
        -- by rewrite Hk; simpl.
        -- done.
        -- apply now_playing_checked.
      * right. eexists _, _. split; [by eapply play_queue_pop|done].
    + left. eexists. split; [apply play_queue_nothing|].
      * by rewrite Hk.
      * done.
      * apply now_playing_checked.
  - rewrite play_queue_track by lia. destruct (now_playing c) as [s|] eqn:Hnp.
    + right. eexists _, _. split; [done|]. by rewrite now_playing_checked.
    + left. eexists. split; [done|]. by rewrite now_playing_checked.
Qed.


(** An exception that leaves [play_queue] after the caller handed in none
    comes out of [play_song], which has not yet touched [now_playing]. *)
Lemma play_queue_raise_now_playing w i c e :
  result (play_queue w i None c) = Raise e →
  now_playing (final (play_queue w i None c)) = now_playing c.
Proof.
  destruct (play_queue_shape w i c) as [(c' & Hrun & Hnp)|(s & c' & Hrun & Hnp)];
    rewrite Hrun; [done|].
  intros He. by destruct (play_song_raise _ _ _ _ _ He) as [-> _].
Qed.




(** ** C9: stop and the completion callbacks after it *)

(** C9: a stop that passes the tests of the command sets
    [skip_next_autoplay] and stops the voice client. The completion callback
    that comes next calls nothing, leaves queue, song and loop as they are
    and clears the flag; the callback after that one is a plain
    [play_queue]. *)
Theorem stop_skips_one_autoplay w i c g vc :
  joined i = Some (g, vc) → is_playing vc = true →
  let c1 := final (stop w i c) in
  skip_next_autoplay c1 = true
  ∧ ev_stop (guild_id g) ∈ trace (stop w i c)
  ∧ ∀ w1 i1 e1,
      let r1 := play_next_callback w1 i1 e1 c1 in
      trace r1 = [] ∧ result r1 = Return tt
      ∧ skip_next_autoplay (final r1) = false
      ∧ queue (final r1) = queue c1
      ∧ now_playing (final r1) = now_playing c1
      ∧ loop (final r1) = loop c1
      ∧ ∀ w2 i2 e2,
          play_next_callback w2 i2 e2 (final r1) = play_queue w2 i2 e2 (final r1).
Proof.
  intros Hj Hp c1. unfold c1. rewrite (stop_run _ _ _ _ _ Hj Hp).
  cbn [final trace]. split; [done|]. split; [apply list_elem_of_here|].
  intros w1 i1 e1.
  rewrite play_next_callback_skip by done. cbn [final trace result].
  repeat split. intros w2 i2 e2. by apply play_next_callback_go.
Qed.

Lemma stop_skips_one_autoplay_witness :
  let c := cog_guild1 [song_B] (Some song_A) 0 in
  let c1 := final (stop world_cached guild1_playing c) in
  let r1 := play_next_callback world_cached guild1_idle None c1 in
  let r2 := play_next_callback world_cached guild1_idle None (final r1) in
  skip_next_autoplay c1 = true
  ∧ played (trace r1) = [] ∧ skip_next_autoplay (final r1) = false
  ∧ r2 = play_queue world_cached guild1_idle None (final r1)
  ∧ played (trace r2) = [song_B].
Proof.
  destruct (stop_skips_one_autoplay world_cached guild1_playing
              (cog_guild1 [song_B] (Some song_A) 0) _ _ eq_refl eq_refl)
    as (Hskip & _ & Hnext).
  destruct (Hnext world_cached guild1_idle None)
    as (Htr & _ & Hclear & _ & _ & _ & Hgo).
  split; [exact Hskip|]. split; [by rewrite Htr|]. split; [exact Hclear|].
  split; [apply Hgo|]. rewrite Hgo. vm_compute. reflexivity.
Defined.

(** ** C10: the clear command *)

(** C10: the clear command leaves [now_playing], [loop] and
    [skip_next_autoplay] as they are and calls nothing on the voice client,
    so a song that plays goes on playing. When the command passes the tests
    on the voice channel, the queue of the guild is empty afterwards; when
    it does not, the cog is unchanged. *)
Theorem clear_keeps_session w i c :
  let r := clear w i c in
  now_playing (final r) = now_playing c
  ∧ loop (final r) = loop c
  ∧ skip_next_autoplay (final r) = skip_next_autoplay c
  ∧ (∀ e, e ∈ trace r → is_voice_event e = false)
  ∧ result r = Return tt
  ∧ (∀ g vc, joined i = Some (g, vc) →
       dict (final r) !! str (guild_id g) = Some [])
  ∧ (joined i = None → final r = c).
Proof.
  intros r. unfold r. destruct (joined i) as [[g vc]|] eqn:Hj.
  - rewrite (clear_run _ _ _ _ _ Hj). simpl. repeat split; try done.
    + by intros e ->%list_elem_of_singleton.
    + intros g' vc' [= <- <-]. unfold set_songs, dict. simpl.
      by rewrite lookup_insert_eq.
  - destruct (clear_not_joined w i c Hj) as [msg ->]. simpl.
    repeat split; try done. by intros e ->%list_elem_of_singleton.
Qed.

Lemma clear_keeps_session_witness :
  let c := cog_guild1 [song_A; song_B] (Some song_C) 1 in
  let r := clear world_cached guild1_playing c in
  now_playing (final r) = Some song_C ∧ loop (final r) = 1
  ∧ dict (final r) !! "1" = Some [].
Proof.
  destruct (clear_keeps_session world_cached guild1_playing
              (cog_guild1 [song_A; song_B] (Some song_C) 1))
    as (Hnp & Hlp & _ & _ & _ & Hq & _).
  split; [exact Hnp|]. split; [exact Hlp|].
  exact (Hq _ _ eq_refl).
Defined.

(** ** Rotations of a list *)

Section rotation.
Local Open Scope nat_scope.
Context {A : Type}.
Implicit Types (q : list A) (x : A).

(** Moving the head to the tail shifts every index by one, modulo the
    length. *)
Lemma lookup_head_to_tail x q i :
  i < S (length q) →
  (q ++ [x]) !! i = (x :: q) !! ((i + 1) mod S (length q)).
Proof.
  intros Hi. destruct (decide (i < length q)) as [Hlt|Hge].
  - rewrite lookup_app_l by done. rewrite Nat.mod_small by lia.
    by rewrite Nat.add_1_r.
  - assert (i = length q) as -> by lia.
    rewrite list_lookup_middle by done.
    by rewrite Nat.add_1_r, Nat.Div0.mod_same.
Qed.

Lemma rotate_nat_add_mod n i len :
  0 < len → rotate_nat_add n i len = (n + i) mod len.
Proof.
  intros Hlen. unfold rotate_nat_add.
  rewrite <-Nat2Z.inj_add, <-Nat2Z.inj_mod. apply Nat2Z.id.
Qed.

Lemma rotate_S_cons n x q : rotate (S n) (x :: q) = rotate n (q ++ [x]).
Proof.
  apply list_eq. intros i.
  destruct (decide (i < S (length q))) as [Hi|Hi].
  - rewrite !lookup_rotate_r by (rewrite ?length_app; simpl; lia).
    rewrite length_app. simpl. rewrite Nat.add_1_r.
    rewrite !rotate_nat_add_mod by lia.
    rewrite lookup_head_to_tail by (apply Nat.mod_upper_bound; lia).
    rewrite Nat.Div0.add_mod_idemp_l. do 2 f_equal. lia.
  - rewrite !lookup_ge_None_2; [done| |];
      rewrite length_rotate, ?length_app; simpl; lia.
Qed.
End rotation.

Lemma omap_cons_Some {A B} (f : A → option B) x l y :
  f x = Some y → omap f (x :: l) = y :: omap f l.
Proof. intros Hx. csimpl. by rewrite Hx. Qed.

Lemma cyclic_S s q n : cyclic (s :: q) (S n) = s :: cyclic (q ++ [s]) n.
Proof.
  unfold cyclic. rewrite length_app. cbn [length]. rewrite Nat.add_1_r.
  change (seq 0 (S n)) with (0%nat :: seq 1 n).
  rewrite (omap_cons_Some _ _ _ s) by (by rewrite Nat.Div0.mod_0_l).
  f_equal. rewrite <-fmap_S_seq.
  apply list_omap_ext. apply Forall2_fmap_l, Forall_Forall2_diag.
  apply Forall_forall. intros j _. cbn beta delta [compose].
  rewrite lookup_head_to_tail by (apply Nat.mod_upper_bound; lia).
  rewrite Nat.Div0.add_mod_idemp_l. f_equal. f_equal. lia.
Qed.

(** ** Sequences of advances *)

(** What [play_song] does to the cog and what it hands to the voice
    client. *)
Lemma play_song_effect w i s c :
  let r := play_song w i s c in
  (final r = c ∨ final r = with_now_playing c (Some s))
  ∧ (played (trace r) = [] ∨ played (trace r) = [s]).
Proof.
  simpl. rewrite play_song_run.
  destruct (resolve_error w s); simpl; [rewrite played_downloads; auto|].
  destruct (guild i) as [g|]; simpl; [|rewrite played_downloads; auto].
  destruct (voice_client g); simpl; [|rewrite played_downloads; auto].
  destruct (play w); simpl; [rewrite played_app, played_downloads; auto|].
  destruct (source w); simpl; rewrite played_app, played_downloads; auto.
Qed.

Lemma play_song_handoff w i s c g :
  resolve_error w s = None → guild i = Some g → voice_client g ≠ None →
  play w = None →
  let r := play_song w i s c in
  (final r = c ∨ final r = with_now_playing c (Some s))
  ∧ played (trace r) = [s] ∧ result r = Return tt.
Proof.
  intros Hr Hg Hvc Hp. simpl. rewrite play_song_run, Hr, Hg, Hp.
  destruct (voice_client g); [|done].
  destruct (source w); simpl; rewrite played_app, played_downloads; auto.
Qed.

Lemma smooth_inv gid q a :
  smooth gid q a = true →
  call_exception a = None
  ∧ (∃ g, guild (call_interaction a) = Some g ∧ guild_id g = gid
          ∧ voice_client g ≠ None)
  ∧ (∀ s, s ∈ q → resolve_error (call_world a) s = None)
  ∧ play (call_world a) = None.
Proof.
  unfold smooth. rewrite !andb_true_iff.
  intros [[[He Hg] Hq] Hp].
  apply bool_decide_eq_true in He, Hp. split; [done|].
  split; [|split; [|done]].
  - destruct (guild (call_interaction a)) as [g|]; [|done].
    apply andb_true_iff in Hg as [Hid Hvc].
    apply bool_decide_eq_true in Hid, Hvc. by exists g.
  - intros s Hs. apply resolves_resolve_error.
    rewrite forallb_forall in Hq. apply Hq. by apply list_elem_of_In.
Qed.

Lemma smooth_head_to_tail gid s q a :
  smooth gid (q ++ [s]) a = smooth gid (s :: q) a.
Proof.
  unfold smooth. f_equal. f_equal. rewrite forallb_app. simpl.
  rewrite andb_true_r. apply andb_comm.
Qed.

Lemma advance_run a c :
  advance a c =
  if via_callback a && skip_next_autoplay c then
    mkRun (with_skip c false) [] (Return tt)
  else play_queue (call_world a) (call_interaction a) (call_exception a) c.
Proof.
  unfold advance. destruct (via_callback a); [|done].
  destruct (skip_next_autoplay c) eqn:Hs; simpl.
  - by apply play_next_callback_skip.
  - by apply play_next_callback_go.
Qed.

(** ** C7: the track loop *)

(** One advance under the track loop. *)
Lemma advance_track a c s :
  loop c = 2 → now_playing c = Some s →
  let r := advance a c in
  loop (final r) = 2 ∧ now_playing (final r) = Some s
  ∧ (∀ k, songs (final r) k = songs c k)
  ∧ (played (trace r) = [] ∨ played (trace r) = [s])
  ∧ (skip_next_autoplay c = false →
     skip_next_autoplay (final r) = false
     ∧ (smooth_any [s] a = true → played (trace r) = [s])).
Proof.
  intros Hlp Hnp. simpl. rewrite advance_run.
  destruct (via_callback a && skip_next_autoplay c) eqn:Hcb; simpl.
  { apply andb_true_iff in Hcb as [_ Hst].
    split; [done|]. split; [done|]. split; [done|]. split; [by left|].
    intros Hs. congruence. }
  assert (Hskip : skip_next_autoplay c = false →
                   ∀ r : run unit, final r = checked (call_interaction a) c
                     ∨ final r = with_now_playing
                                   (checked (call_interaction a) c) (Some s) →
                   skip_next_autoplay (final r) = false).
  { intros Hs r [-> | ->]; simpl; by rewrite skip_checked. }
  destruct (call_exception a) as [e|] eqn:He.
  { rewrite play_queue_exception. simpl.
    split; [done|]. split; [done|]. split; [done|]. split; [by left|].
    intros Hs. split; [done|].
    intros Hsm. apply smooth_inv in Hsm as [Hex _]. congruence. }
  rewrite play_queue_track by lia. rewrite Hnp.
  pose proof (play_song_effect (call_world a) (call_interaction a) s
                (checked (call_interaction a) c)) as [Hfin Hpl].
  simpl in Hfin, Hpl. split; [|split; [|split; [|split; [done|]]]].
  - destruct Hfin as [-> | ->]; simpl; by rewrite loop_checked.
  - destruct Hfin as [-> | ->]; simpl; [|done].
    by rewrite now_playing_checked.
  - intros k. destruct Hfin as [-> | ->]; unfold songs, dict; simpl;
      apply (songs_checked (call_interaction a) c k).
  - intros Hs. split; [by apply Hskip|].
    intros Hsm. apply smooth_inv in Hsm as (_ & (g & Hg & _ & Hvc) & Hres & Hp).
    eapply play_song_handoff; eauto. apply Hres, list_elem_of_here.
Qed.

(** C7: under the track loop with a song playing, advances, however many and
    however they end, leave [now_playing], the loop mode and the songs of
    every queue as they were, and every song handed to the voice client is
    the song playing. When the skip flag is off and no advance meets an
    obstacle, each advance hands that song to the voice client once more. *)
Theorem track_loop_replays s calls c :
  loop c = 2 → now_playing c = Some s →
  let c' := (advances calls c).1 in
  let tr := (advances calls c).2 in
  now_playing c' = Some s ∧ loop c' = 2
  ∧ (∀ k, songs c' k = songs c k)
  ∧ (∀ s', s' ∈ played tr → s' = s)
  ∧ (skip_next_autoplay c = false → forallb (smooth_any [s]) calls = true →
     played tr = replicate (length calls) s).
Proof.
  simpl. revert c. induction calls as [|a rest IH]; intros c Hlp Hnp.
  { simpl. repeat split; auto. by intros s' ?%elem_of_nil. }
  destruct (advance_track a c s Hlp Hnp) as (Hlp1 & Hnp1 & Hq1 & Hpl1 & Hsk1).
  simpl in Hlp1, Hnp1, Hq1, Hpl1, Hsk1.
  destruct (IH (final (advance a c)) Hlp1 Hnp1) as (Hnp2 & Hlp2 & Hq2 & Hpl2 & Hsm2).
  cbn [advances]. destruct (advances rest (final (advance a c))) as [c' tr].
  cbn [fst snd] in *. split; [done|]. split; [done|]. split; [|split].
  - intros k. by rewrite Hq2, Hq1.
  - intros s'. rewrite played_app, elem_of_app. intros [Hin|Hin]; [|by apply Hpl2].
    destruct Hpl1 as [Hpl1|Hpl1]; rewrite Hpl1 in Hin.
    + by apply elem_of_nil in Hin.
    + by apply list_elem_of_singleton in Hin.
  - intros Hs Hall. cbn [forallb] in Hall.
    apply andb_true_iff in Hall as [Ha Hrest].
    destruct (Hsk1 Hs) as [Hs1 Hplay]. rewrite played_app, (Hplay Ha).
    by rewrite (Hsm2 Hs1 Hrest).
Qed.

Lemma track_loop_replays_witness :
  let c := cog_guild1 [song_B; song_C] (Some song_A) 2 in
  let calls := [ mkCall world_cached guild1_idle None true;
                 mkCall world_stream_only guild1_idle None false;
                 mkCall world_cached guild1_idle None true ] in
  now_playing (advances calls c).1 = Some song_A
  ∧ songs (advances calls c).1 "1" = [song_B; song_C]
  ∧ played (advances calls c).2 = [song_A; song_A; song_A].
Proof.
  destruct (track_loop_replays song_A
              [ mkCall world_cached guild1_idle None true;
                mkCall world_stream_only guild1_idle None false;
                mkCall world_cached guild1_idle None true ]
              (cog_guild1 [song_B; song_C] (Some song_A) 2) eq_refl eq_refl)
    as (Hnp & _ & Hq & _ & Hpl).
  split; [exact Hnp|]. split; [exact (Hq "1")|].
  exact (Hpl eq_refl eq_refl).
Defined.

(** ** C8: the queue loop *)

(** One smooth advance under the queue loop. *)
Lemma advance_queue_loop gid a c s q :
  loop c = 1 → skip_next_autoplay c = false →
  songs c (str gid) = s :: q → smooth gid (s :: q) a = true →
  let r := advance a c in
  loop (final r) = 1 ∧ skip_next_autoplay (final r) = false
  ∧ songs (final r) (str gid) = q ++ [s]
  ∧ played (trace r) = [s] ∧ result r = Return tt.
Proof.
  intros Hlp Hs Hq Hsm. simpl.
  apply smooth_inv in Hsm as (He & (g & Hg & Hid & Hvc) & Hres & Hp).
  rewrite advance_run, Hs, andb_false_r, He.
  assert (Hk : guild_key (call_interaction a) = Some (str gid))
    by (unfold guild_key; by rewrite Hg, Hid).
  rewrite (play_queue_pop _ _ _ _ _ _ Hk Hq) by lia.
  rewrite bool_decide_eq_true_2 by done.
  assert (Hr : resolve_error (call_world a) s = None)
    by apply Hres, list_elem_of_here.
  pose proof (play_song_handoff (call_world a) (call_interaction a) s
                (set_songs (str gid) (q ++ [s]) c) g Hr Hg Hvc Hp)
    as (Hfin & Hpl & Hret).
  simpl in Hfin, Hpl, Hret. split; [|split; [|split; [|done]]].
  - by destruct Hfin as [-> | ->].
  - by destruct Hfin as [-> | ->].
  - destruct Hfin as [-> | ->]; apply songs_set_songs.
Qed.

Lemma forallb_smooth_head_to_tail gid s q calls :
  forallb (smooth gid (q ++ [s])) calls = forallb (smooth gid (s :: q)) calls.
Proof.
  induction calls as [|a rest IH]; [done|]. cbn [forallb].
  by rewrite smooth_head_to_tail, IH.
Qed.

(** C8: under the queue loop, with the skip flag off, a queue [q] that is not
    empty and advances that meet no obstacle, the songs handed to the voice
    client are the songs of [q] over and over, in order; after [n] advances
    the queue is [q] rotated by [n], of the length of [q]. *)
Theorem queue_loop_rotates gid q calls c :
  loop c = 1 → skip_next_autoplay c = false →
  songs c (str gid) = q → q ≠ [] →
  forallb (smooth gid q) calls = true →
  played (advances calls c).2 = cyclic q (length calls)
  ∧ songs (advances calls c).1 (str gid) = rotate (length calls) q
  ∧ length (songs (advances calls c).1 (str gid)) = length q.
Proof.
  revert q c. induction calls as [|a rest IH]; intros q c Hlp Hs Hq Hne Hall.
  { simpl. unfold rotate. rewrite Nat.Div0.mod_0_l. simpl.
    by rewrite app_nil_r, Hq. }
  destruct q as [|s q]; [done|]. cbn [forallb] in Hall.
  apply andb_true_iff in Hall as [Ha Hrest].
  destruct (advance_queue_loop gid a c s q Hlp Hs Hq Ha)
    as (Hlp1 & Hs1 & Hq1 & Hpl1 & _).
  simpl in Hlp1, Hs1, Hq1, Hpl1.
  assert (Hrest1 : forallb (smooth gid (q ++ [s])) rest = true).
  { by rewrite forallb_smooth_head_to_tail. }
  destruct (IH (q ++ [s]) (final (advance a c)) Hlp1 Hs1 Hq1
              ltac:(by destruct q) Hrest1) as (Hpl & Hrot & Hlen).
  cbn [advances]. destruct (advances rest (final (advance a c))) as [c' tr].
  cbn [fst snd length] in *. split; [|split].
  - by rewrite played_app, Hpl1, Hpl, cyclic_S.
  - by rewrite Hrot, rotate_S_cons.
  - rewrite Hlen, length_app. simpl. lia.
Qed.

Lemma queue_loop_rotates_witness :
  let c := cog_guild1 [song_A; song_B; song_C] None 1 in
  let calls := replicate 7 (mkCall world_cached guild1_idle None true) in
  played (advances calls c).2
  = [song_A; song_B; song_C; song_A; song_B; song_C; song_A]
  ∧ songs (advances calls c).1 "1" = [song_B; song_C; song_A]
  ∧ length (songs (advances calls c).1 "1") = 3%nat.
Proof.
  apply (queue_loop_rotates 1 [song_A; song_B; song_C]
           (replicate 7 (mkCall world_cached guild1_idle None true))
           (cog_guild1 [song_A; song_B; song_C] None 1));
    [reflexivity | reflexivity | reflexivity | discriminate | reflexivity].
Defined.

(** * Further properties of the code *)

(** ** The methods of [Queue] *)

Lemma Queue_append_none i s c :
  guild_key i = None → Queue_append i s c = mkRun c [] (Return tt).
Proof.
  intros Hk. unfold Queue_append.
  by rewrite (bind_run _ _ _ _ _ _ (check_guild_none _ _ Hk)).
Qed.

Lemma Queue_duration_run i k c :
  guild_key i = Some k →
  Queue_duration i c =
  mkRun (ensure k c) [] (Return (foldr (λ song acc, duration song + acc) 0 (songs c k))).
Proof.
  intros Hk. unfold Queue_duration.
  rewrite (bind_run _ _ _ _ _ _ (check_guild_run _ _ _ Hk)).
  by rewrite (bind_run _ _ _ _ _ _ (queue_getitem_ensure _ _)).
Qed.

Lemma Queue_shuffle_run sample i k c :
  guild_key i = Some k →
  Queue_shuffle sample i c =
  mkRun (set_songs k (sample (songs c k)) c) [] (Return tt).
Proof.
  intros Hk. unfold Queue_shuffle.
  rewrite (bind_run _ _ _ _ _ _ (check_guild_run _ _ _ Hk)).
  rewrite (bind_run _ _ _ _ _ _ (queue_getitem_ensure _ _)).
  rewrite queue_setitem_run. simpl. by rewrite set_songs_ensure.
Qed.

Lemma appends_run i k l c :
  guild_key i = Some k →
  appends i l c =
  mkRun (match l with [] => c | _ => set_songs k (songs c k ++ l) c end)
    [] (Return tt).
Proof.
  intros Hk. revert c. induction l as [|s l IH]; intros c; [done|].
  cbn [appends]. rewrite (bind_run _ _ _ _ _ _ (Queue_append_run _ _ _ s Hk)).
  rewrite IH. destruct l as [|s' l]; simpl; [done|].
  by rewrite songs_set_songs, set_songs_twice, <-app_assoc.
Qed.

Lemma pops_run i k n c :
  guild_key i = Some k → (n ≤ length (songs c k))%nat →
  pops i n c =
  mkRun (match n with O => c | _ => set_songs k (drop n (songs c k)) c end)
    [] (Return (Some <$> take n (songs c k))).
Proof.
  intros Hk. revert c. induction n as [|n IH]; intros c Hn; [done|].
  destruct (songs c k) as [|s q] eqn:Hq; [simpl in Hn; lia|].
  cbn [pops]. rewrite (bind_run _ _ _ _ _ _ (Queue_pop_cons _ _ _ _ _ Hk Hq)).
  assert (Hq' : songs (set_songs k q c) k = q) by apply songs_set_songs.
  rewrite (bind_run _ _ _ _ _ _ (IH (set_songs k q c)
             ltac:(rewrite Hq'; simpl in Hn; lia))).
  rewrite Hq'. destruct n as [|n]; simpl; [done|].
  by rewrite set_songs_twice.
Qed.

(** X1: first in, first out. Songs appended to the queue of a guild, one
    call of [Queue.append] each, go behind the songs already there, and as
    many calls of [Queue.pop] as there are songs give them back in that
    order, without an error, and leave what was not popped. *)
Theorem append_pop_fifo i k l n c :
  guild_key i = Some k →
  (n ≤ length (songs c k ++ l))%nat →
  let c1 := final (appends i l c) in
  songs c1 k = songs c k ++ l
  ∧ result (pops i n c1) = Return (Some <$> take n (songs c k ++ l))
  ∧ songs (final (pops i n c1)) k = drop n (songs c k ++ l).
Proof.
  intros Hk Hn. simpl. rewrite (appends_run _ _ _ _ Hk). simpl.
  set (c1 := match l with [] => c | _ => _ end).
  assert (Hq : songs c1 k = songs c k ++ l).
  { unfold c1. destruct l; [by rewrite app_nil_r|apply songs_set_songs]. }
  split; [done|].
  rewrite (pops_run _ _ _ _ Hk) by (by rewrite Hq). simpl. rewrite Hq.
  split; [done|]. destruct n; [by rewrite Hq|apply songs_set_songs].
Qed.

Lemma append_pop_fifo_witness :
  let c1 := final (appends guild1_idle [song_B; song_C] (cog_guild1 [song_A] None 0)) in
  songs c1 "1" = [song_A; song_B; song_C]
  ∧ result (pops guild1_idle 2 c1) = Return [Some song_A; Some song_B]
  ∧ songs (final (pops guild1_idle 2 c1)) "1" = [song_C].
Proof.
  apply (append_pop_fifo guild1_idle "1" [song_B; song_C] 2
           (cog_guild1 [song_A] None 0)).
  - reflexivity.
  - vm_compute. lia.
Defined.

(** X2: one pop too many. Popping more often than there are songs raises
    [IndexError] at the first pop that finds the queue empty; the queue is
    then empty and the songs popped before are gone from it. *)
Theorem pops_beyond_raise i k n c :
  guild_key i = Some k → (length (songs c k) < n)%nat →
  result (pops i n c) = Raise IndexError ∧ songs (final (pops i n c)) k = [].
Proof.
  intros Hk. revert c. induction n as [|n IH]; intros c Hn; [lia|].
  cbn [pops]. destruct (songs c k) as [|s q] eqn:Hq.
  - unfold mbind, M_bind, bind. rewrite (Queue_pop_nil _ _ _ Hk Hq). simpl.
    by rewrite songs_ensure.
  - rewrite (bind_run _ _ _ _ _ _ (Queue_pop_cons _ _ _ _ _ Hk Hq)).
    rewrite prepend_nil.
    assert (Hq' : songs (set_songs k q c) k = q) by apply songs_set_songs.
    destruct (IH (set_songs k q c) ltac:(rewrite Hq'; simpl in Hn; lia))
      as [Hres Hfin].
    unfold mbind, M_bind, bind.
    destruct (pops i n (set_songs k q c)) as [c2 tr2 [a|e]]; simpl in *;
      [done|]. by simplify_eq.
Qed.

Lemma pops_beyond_raise_witness :
  result (pops guild1_idle 3 (cog_guild1 [song_A; song_B] None 0)) = Raise IndexError
  ∧ songs (final (pops guild1_idle 3 (cog_guild1 [song_A; song_B] None 0))) "1" = [].
Proof.
  apply (pops_beyond_raise guild1_idle "1" 3 (cog_guild1 [song_A; song_B] None 0)).
  - reflexivity.
  - vm_compute. lia.
Defined.

(** X3: without a guild every method of [Queue] returns its default at once
    ([[]], [None], [0]) and leaves the cog as it is; none of them raises. *)
Theorem queue_methods_without_guild sample i s c :
  guild i = None →
  Queue_get i c = mkRun c [] (Return [])
  ∧ Queue_pop i c = mkRun c [] (Return None)
  ∧ Queue_append i s c = mkRun c [] (Return tt)
  ∧ Queue_length i c = mkRun c [] (Return 0)
  ∧ Queue_shuffle sample i c = mkRun c [] (Return tt)
  ∧ Queue_duration i c = mkRun c [] (Return 0)
  ∧ Queue_clear i c = mkRun c [] (Return tt).
Proof.
  intros Hg.
  unfold Queue_get, Queue_pop, Queue_append, Queue_length, Queue_shuffle,
    Queue_duration, Queue_clear, _check_guild.
  rewrite Hg. repeat split; reflexivity.
Qed.

Lemma queue_methods_without_guild_witness :
  Queue_pop no_guild (cog_guild1 [song_A] None 0)
  = mkRun (cog_guild1 [song_A] None 0) [] (Return None)
  ∧ Queue_length no_guild (cog_guild1 [song_A] None 0)
    = mkRun (cog_guild1 [song_A] None 0) [] (Return 0).
Proof.
  destruct (queue_methods_without_guild (λ l, l) no_guild song_B
              (cog_guild1 [song_A] None 0) eq_refl)
    as (_ & Hpop & _ & Hlen & _).
  by split.
Defined.

Lemma total_duration_Permutation (l1 l2 : list Song) :
  l1 ≡ₚ l2 →
  foldr (λ song acc, duration song + acc) 0 l1
  = foldr (λ song acc, duration song + acc) 0 l2.
Proof. induction 1; simpl; lia. Qed.

(** X4: shuffling keeps the songs. When the sample drawn is a permutation
    of the queue, as [random.sample(q, len(q))] is, the queue of the guild
    afterwards has the same songs as often as before, the same length and
    the same total duration; the queues of the other guilds are the same. *)
Theorem shuffle_keeps_songs sample i k c :
  guild_key i = Some k → sample (songs c k) ≡ₚ songs c k →
  let c' := final (Queue_shuffle sample i c) in
  songs c' k ≡ₚ songs c k
  ∧ result (Queue_length i c') = result (Queue_length i c)
  ∧ result (Queue_duration i c') = result (Queue_duration i c)
  ∧ ∀ k', k' ≠ k → dict c' !! k' = dict c !! k'.
Proof.
  intros Hk Hperm. simpl. rewrite (Queue_shuffle_run _ _ _ _ Hk). simpl.
  rewrite !(Queue_length_run _ _ _ Hk), !(Queue_duration_run _ _ _ Hk). simpl.
  rewrite songs_set_songs. split; [done|]. split; [by rewrite Hperm|].
  split.
  - f_equal. by apply total_duration_Permutation.
  - intros k' Hne. by apply dict_set_songs_ne.
Qed.

Lemma shuffle_keeps_songs_witness :
  let c := cog_guild1 [song_A; song_B; song_C] None 0 in
  let c' := final (Queue_shuffle reverse guild1_idle c) in
  songs c' "1" ≡ₚ [song_A; song_B; song_C]
  ∧ result (Queue_duration guild1_idle c') = Return 620.
Proof.
  destruct (shuffle_keeps_songs reverse guild1_idle "1"
              (cog_guild1 [song_A; song_B; song_C] None 0) eq_refl
              (reverse_Permutation _)) as (Hperm & _ & Hdur & _).
  split; [exact Hperm|]. rewrite Hdur. reflexivity.
Defined.


(** ** The entries of the dict *)

Global Instance keeps_entry_preorder k : PreOrder (keeps_entry k).
Proof.
  split; [intros c; by unfold keeps_entry|].
  intros c1 c2 c3 H1 H2 H. by apply H2, H1.
Qed.

Lemma keeps_entry_queue_setitem k id q :
  preserves (keeps_entry k) (queue_setitem id q).
Proof.
  intros c. rewrite queue_setitem_run. simpl.
  unfold keeps_entry, has_entry, set_songs, dict. simpl. intros Hk.
  destruct (decide (id = k)) as [->|Hne].
  - rewrite lookup_insert_eq. by eexists.
  - by rewrite lookup_insert_ne.
Qed.

Lemma keeps_entry_set_now_playing k s :
  preserves (keeps_entry k) (set_now_playing s).
Proof. intros c Hc. exact Hc. Qed.

Lemma keeps_entry_set_loop k n : preserves (keeps_entry k) (set_loop n).
Proof. intros c Hc. exact Hc. Qed.

Lemma keeps_entry_set_skip k b :
  preserves (keeps_entry k) (set_skip_next_autoplay b).
Proof. intros c Hc. exact Hc. Qed.

#[local] Hint Resolve keeps_entry_queue_setitem keeps_entry_set_now_playing
  keeps_entry_set_loop keeps_entry_set_skip : preserve.

Lemma keeps_entry_queue_getitem k id :
  preserves (keeps_entry k) (queue_getitem id).
Proof. unfold queue_getitem. preserve. Qed.

#[local] Hint Resolve keeps_entry_queue_getitem : preserve.

Lemma keeps_entry_check_guild k i : preserves (keeps_entry k) (_check_guild i).
Proof. unfold _check_guild. preserve. Qed.

#[local] Hint Resolve keeps_entry_check_guild : preserve.

Lemma keeps_entry_Queue_get k i : preserves (keeps_entry k) (Queue_get i).
Proof. unfold Queue_get. preserve. Qed.

Lemma keeps_entry_Queue_pop k i : preserves (keeps_entry k) (Queue_pop i).
Proof. unfold Queue_pop. preserve. Qed.

Lemma keeps_entry_Queue_append k i s :
  preserves (keeps_entry k) (Queue_append i s).
Proof. unfold Queue_append. preserve. Qed.

Lemma keeps_entry_Queue_length k i : preserves (keeps_entry k) (Queue_length i).
Proof. unfold Queue_length. preserve. Qed.

Lemma keeps_entry_Queue_shuffle k i sample :
  preserves (keeps_entry k) (Queue_shuffle sample i).
Proof. unfold Queue_shuffle. preserve. Qed.

Lemma keeps_entry_Queue_duration k i :
  preserves (keeps_entry k) (Queue_duration i).
Proof. unfold Queue_duration. preserve. Qed.

Lemma keeps_entry_Queue_clear k i : preserves (keeps_entry k) (Queue_clear i).
Proof. unfold Queue_clear. preserve. Qed.

#[local] Hint Resolve keeps_entry_Queue_get keeps_entry_Queue_pop
  keeps_entry_Queue_append keeps_entry_Queue_length keeps_entry_Queue_shuffle
  keeps_entry_Queue_duration keeps_entry_Queue_clear : preserve.

Lemma keeps_entry_get_voice_client k w i connect_arg :
  preserves (keeps_entry k) (get_voice_client w i connect_arg).
Proof. unfold get_voice_client. preserve. Qed.

Lemma keeps_entry_subsonic_download k w id use_stream :
  preserves (keeps_entry k) (subsonic_download w id use_stream).
Proof. unfold subsonic_download. preserve. Qed.

#[local] Hint Resolve keeps_entry_get_voice_client
  keeps_entry_subsonic_download : preserve.

Lemma keeps_entry_play_song k w i s : preserves (keeps_entry k) (play_song w i s).
Proof. unfold play_song. preserve. Qed.

#[local] Hint Resolve keeps_entry_play_song : preserve.

Lemma keeps_entry_play_queue k w i exception :
  preserves (keeps_entry k) (play_queue w i exception).
Proof. unfold play_queue. preserve. Qed.

Lemma keeps_entry_what_value k what : preserves (keeps_entry k) (what_value what).
Proof. unfold what_value. preserve. Qed.

#[local] Hint Resolve keeps_entry_play_queue keeps_entry_what_value : preserve.

Lemma keeps_entry_try_finally k {A} (m : M A) f :
  preserves (keeps_entry k) m → preserves (keeps_entry k) f →
  preserves (keeps_entry k) (try_finally m f).
Proof.
  intros Hm Hf c. unfold try_finally. specialize (Hm c).
  destruct (m c) as [c1 tr1 res]. specialize (Hf c1).
  destruct (f c1) as [c2 tr2 [[]|e]]; simpl in *; by etrans.
Qed.

Lemma keeps_entry_lift k {A} (o : outcome A) : preserves (keeps_entry k) (lift o).
Proof. intros c Hc. exact Hc. Qed.

Lemma keeps_entry_islice k q start stop :
  preserves (keeps_entry k) (islice q start stop).
Proof. unfold islice. preserve. Qed.

Lemma keeps_entry_to_Song k song t : preserves (keeps_entry k) (to_Song song t).
Proof. unfold to_Song. preserve. Qed.

#[local] Hint Resolve keeps_entry_lift keeps_entry_islice keeps_entry_to_Song
  : preserve.

Lemma keeps_entry_append_album k i l n :
  preserves (keeps_entry k) (append_album i l n).
Proof.
  revert n. induction l as [|song rest IH]; intros n; simpl; [preserve|].
  destruct (sub_title song); [|apply IH]. preserve.
Qed.

#[local] Hint Resolve keeps_entry_append_album : preserve.

Lemma keeps_entry_leave k disconnect i :
  preserves (keeps_entry k) (leave disconnect i).
Proof.
  unfold leave. preserve. apply keeps_entry_try_finally; preserve.
Qed.

Lemma keeps_entry_queue_command k f i page :
  preserves (keeps_entry k) (queue_command f i page).
Proof. unfold queue_command. preserve. Qed.

Lemma keeps_entry_play_command k sub w i query :
  preserves (keeps_entry k) (play_command sub w i query).
Proof. unfold play_command. preserve. Qed.

Lemma keeps_entry_run_command k w i cmd :
  preserves (keeps_entry k) (run_command w i cmd).
Proof.
  destruct cmd; simpl;
    unfold play_next_callback, stop, pause, skip, clear, resume, loop_command,
      shuffle_command, cog_queue_getitem_last;
    preserve.
Qed.

(** X5: the queue of a guild, once it is in the dict, stays in the dict.
    No method of [Queue] and none of [get_voice_client], the two advance
    entry points and the commands play, stop, pause, skip, clear, resume,
    leave, loop, shuffle and queue removes the entry of any guild, whether
    it returns or raises: clearing and the reset on connecting put an empty
    queue in its place. *)
Theorem entries_persist i op k c :
  has_entry k c → has_entry k (final (run_operation i op c)).
Proof.
  assert (H : preserves (keeps_entry k) (run_operation i op)); [|apply H].
  destruct op; simpl.
  - apply keeps_entry_run_command.
  - apply keeps_entry_play_command.
  - apply keeps_entry_leave.
  - apply keeps_entry_queue_command.
Qed.

Lemma entries_persist_witness :
  let c := cog_two_guilds [song_A] [song_B] (Some song_C) 1 false in
  has_entry "2"
    (final (run_operation guild1_unconnected
              (op_command world_cached (do_get_voice_client true)) c))
  ∧ has_entry "1"
      (final (run_operation guild1_unconnected
                (op_play subsonic_demo world_cached "song:a1") c))
  ∧ has_entry "1"
      (final (run_operation guild1_playing (op_leave (Some ClientException)) c))
  ∧ has_entry "2"
      (final (run_operation guild1_playing (op_queue seconds_plain 0) c)).
Proof.
  cbv zeta. repeat split; apply entries_persist; vm_compute; by eexists.
Defined.

(** ** [get_voice_client] *)

(** X6: the reset on connecting. When the user sits in a voice channel of a
    guild where the bot has no voice client and [get_voice_client] is asked
    to connect, the queue of that guild is emptied, [now_playing] is unset
    and the loop is switched off before the connection is tried, so also
    when the connection fails. [skip_next_autoplay] is not reset, and the
    queues of the other guilds are not touched. *)
Theorem connect_resets w i c vs ch g :
  user i = Member (Some vs) → voice_channel vs = Some ch →
  guild i = Some g → voice_client g = None →
  let r := get_voice_client w i true c in
  songs (final r) (str (guild_id g)) = []
  ∧ now_playing (final r) = None ∧ loop (final r) = 0
  ∧ skip_next_autoplay (final r) = skip_next_autoplay c
  ∧ (∀ k', k' ≠ str (guild_id g) → dict (final r) !! k' = dict c !! k')
  ∧ trace r = [ev_connect ch]
  ∧ result r = match connect w with
               | Some e => Raise e
               | None => Return (Some (mkVoiceClient ch false false))
               end.
Proof.
  intros Hu Hch Hg Hvc. simpl.
  assert (Hk : guild_key i = Some (str (guild_id g)))
    by (unfold guild_key; by rewrite Hg).
  unfold get_voice_client. rewrite Hu. simpl. rewrite Hch, Hg, Hvc.
  rewrite (bind_run _ _ _ _ _ _ (Queue_clear_run _ _ _ Hk)).
  unfold_M. simpl. destruct (connect w); simpl.
  - repeat split; try done; [apply songs_set_songs|].
    intros k' Hne. by apply dict_set_songs_ne.
  - repeat split; try done; [apply songs_set_songs|].
    intros k' Hne. by apply dict_set_songs_ne.
Qed.

Lemma connect_resets_witness :
  let c := cog_two_guilds [song_A] [song_B] (Some song_C) 2 true in
  let r := get_voice_client world_cached guild1_unconnected true c in
  songs (final r) "1" = [] ∧ now_playing (final r) = None ∧ loop (final r) = 0
  ∧ skip_next_autoplay (final r) = true
  ∧ songs (final r) "2" = [song_B].
Proof.
  destruct (connect_resets world_cached guild1_unconnected
              (cog_two_guilds [song_A] [song_B] (Some song_C) 2 true)
              _ _ _ eq_refl eq_refl eq_refl eq_refl)
    as (Hq & Hnp & Hlp & Hsk & Hother & _).
  split; [exact Hq|]. split; [exact Hnp|]. split; [exact Hlp|].
  split; [exact Hsk|]. unfold songs. rewrite Hother; [reflexivity|].
  vm_compute. discriminate.
Defined.

Lemma get_voice_client_connected w i c g vc :
  guild i = Some g → voice_client g = Some vc →
  get_voice_client w i true c = get_voice_client w i false c.
Proof.
  intros Hg Hvc. unfold get_voice_client. destruct (user i) as [|v]; [done|].
  destruct (user_channel v); [|done]. by rewrite Hg, Hvc.
Qed.

(** X7: the tests of [get_voice_client]. When it is not asked to connect,
    or when the bot is connected in the guild already, [get_voice_client]
    never changes the cog and never raises. It returns a voice client only
    to a member who sits in the channel of that voice client, and then
    sends nothing; in every other case it returns [None] and has sent
    exactly one error message. *)
Theorem get_voice_client_checks w i c :
  let r := get_voice_client w i false c in
  final r = c
  ∧ (∀ e, result r ≠ Raise e)
  ∧ (∀ vc, result r = Return (Some vc) →
       trace r = []
       ∧ ∃ g vs, guild i = Some g ∧ voice_client g = Some vc
                 ∧ user i = Member (Some vs)
                 ∧ voice_channel vs = Some (channel vc))
  ∧ (result r = Return None → ∃ msg, trace r = [send_error [msg]])
  ∧ (∀ g vc, guild i = Some g → voice_client g = Some vc →
       get_voice_client w i true c = r).
Proof.
  simpl. split; [|split; [|split; [|split]]].
  - destruct (joined i) as [[g vc]|] eqn:Hj.
    + by rewrite (get_voice_client_joined _ _ _ _ _ Hj).
    + by destruct (get_voice_client_not_joined w i c Hj) as [msg ->].
  - intros e. destruct (joined i) as [[g vc]|] eqn:Hj.
    + by rewrite (get_voice_client_joined _ _ _ _ _ Hj).
    + by destruct (get_voice_client_not_joined w i c Hj) as [msg ->].
  - intros vc. destruct (joined i) as [[g vc']|] eqn:Hj.
    + rewrite (get_voice_client_joined _ _ _ _ _ Hj). simpl. intros [= ->].
      split; [done|]. destruct (joined_guild _ _ _ Hj) as [Hg Hvc].
      unfold joined in Hj. destruct (user i) as [|[vs|]]; try done.
      simpl in Hj. destruct (voice_channel vs) as [ch|] eqn:Hch; [|done].
      rewrite Hg, Hvc in Hj. case_decide as Hne; [done|].
      exists g, vs. repeat split; try done. by rewrite Hch, Hne.
    + by destruct (get_voice_client_not_joined w i c Hj) as [msg ->].
  - destruct (joined i) as [[g vc']|] eqn:Hj.
    + by rewrite (get_voice_client_joined _ _ _ _ _ Hj).
    + destruct (get_voice_client_not_joined w i c Hj) as [msg ->]. by exists msg.
  - intros g vc Hg Hvc. by eapply get_voice_client_connected.
Qed.

Lemma get_voice_client_checks_witness :
  trace (get_voice_client world_cached guild1_playing false
           (cog_guild1 [song_A] None 0)) = []
  ∧ ∃ msg, trace (get_voice_client world_cached guild1_unconnected false
                    (cog_guild1 [song_A] None 0)) = [send_error [msg]].
Proof.
  split.
  - destruct (get_voice_client_checks world_cached guild1_playing
                (cog_guild1 [song_A] None 0)) as (_ & _ & Hsome & _).
    by destruct (Hsome _ eq_refl).
  - destruct (get_voice_client_checks world_cached guild1_unconnected
                (cog_guild1 [song_A] None 0)) as (_ & _ & _ & Hnone & _).
    exact (Hnone eq_refl).
Defined.

(** ** The playback commands *)

Lemma pause_run w i c g vc :
  joined i = Some (g, vc) →
  pause w i c =
  if is_playing vc then
    mkRun c [ev_pause (guild_id g); send_answer "⏸️ Song paused" []] (Return tt)
  else mkRun c [send_error ["No song currently playing!"]] (Return tt).
Proof.
  intros Hj. destruct (joined_guild _ _ _ Hj) as [Hg _]. unfold pause.
  rewrite (bind_run _ _ _ _ _ _ (get_voice_client_joined w _ c _ _ Hj)).
  unfold guild_id_of. rewrite Hg. by destruct (is_playing vc).
Qed.

Lemma skip_run w i c g vc :
  joined i = Some (g, vc) →
  skip w i c =
  if is_playing vc then
    mkRun c [ev_stop (guild_id g); send_answer "⏭️ Song skipped" []] (Return tt)
  else mkRun c [send_error ["No song currently playing!"]] (Return tt).
Proof.
  intros Hj. destruct (joined_guild _ _ _ Hj) as [Hg _]. unfold skip.
  rewrite (bind_run _ _ _ _ _ _ (get_voice_client_joined w _ c _ _ Hj)).
  unfold guild_id_of. rewrite Hg. by destruct (is_playing vc).
Qed.

(** X8: skip goes on to the next song. A skip that passes its tests stops
    the voice client and leaves the whole cog as it is, the skip flag
    included; with the flag off, the completion callback that the stopped
    track triggers is therefore a plain [play_queue] on the same cog. Pause
    leaves the cog as it is as well. *)
Theorem skip_lets_the_callback_advance w i c g vc :
  joined i = Some (g, vc) → is_playing vc = true →
  skip w i c
  = mkRun c [ev_stop (guild_id g); send_answer "⏭️ Song skipped" []] (Return tt)
  ∧ pause w i c
    = mkRun c [ev_pause (guild_id g); send_answer "⏸️ Song paused" []] (Return tt)
  ∧ (skip_next_autoplay c = false →
     ∀ w' i' e, play_next_callback w' i' e (final (skip w i c))
                = play_queue w' i' e c).
Proof.
  intros Hj Hp. rewrite (pause_run _ _ _ _ _ Hj), (skip_run _ _ _ _ _ Hj), Hp.
  split; [done|]. split; [done|]. intros Hs w' i' e. simpl.
  by apply play_next_callback_go.
Qed.

Lemma skip_lets_the_callback_advance_witness :
  let c := cog_guild1 [song_B; song_C] (Some song_A) 0 in
  final (skip world_cached guild1_playing c) = c
  ∧ played (trace (play_next_callback world_cached guild1_idle None
                     (final (skip world_cached guild1_playing c)))) = [song_B].
Proof.
  destruct (skip_lets_the_callback_advance world_cached guild1_playing
              (cog_guild1 [song_B; song_C] (Some song_A) 0) _ _ eq_refl eq_refl)
    as (Hskip & _ & Hgo).
  split; [by rewrite Hskip|]. rewrite (Hgo eq_refl). reflexivity.
Defined.

Lemma ensure_twice k c : ensure k (ensure k c) = ensure k c.
Proof. apply ensure_set_songs. Qed.

Lemma play_queue_ensure w i k c :
  guild_key i = Some k →
  play_queue w i None (ensure k c) = play_queue w i None c.
Proof.
  intros Hk. unfold play_queue.
  rewrite !(bind_run _ _ _ _ _ _ (Queue_length_run _ _ _ Hk)).
  by rewrite ensure_twice, songs_ensure.
Qed.

(** X9: resume. With the voice client paused, resume resumes it and
    leaves the cog as it is. With the voice client not paused and an empty
    queue, resume sends "The queue is empty" and advances nothing, whatever
    the loop mode. Otherwise resume is an advance: it ends as [play_queue]
    ends, and confirms with an answer when [play_queue] returns. *)
Theorem resume_cases w i c g vc :
  joined i = Some (g, vc) →
  (is_paused vc = true →
     resume w i c
     = mkRun c [ev_resume (guild_id g); send_answer "▶️ Resuming the song" []]
         (Return tt))
  ∧ (is_paused vc = false → songs c (str (guild_id g)) = [] →
       resume w i c
       = mkRun (ensure (str (guild_id g)) c)
           [send_error ["The queue is empty"]] (Return tt))
  ∧ (is_paused vc = false → songs c (str (guild_id g)) ≠ [] →
       final (resume w i c) = final (play_queue w i None c)
       ∧ result (resume w i c) = result (play_queue w i None c)
       ∧ trace (resume w i c)
         = trace (play_queue w i None c)
           ++ match result (play_queue w i None c) with
              | Return _ => [send_answer "▶️ Resuming the playback" []]
              | Raise _ => []
              end).
Proof.
  intros Hj. pose proof (joined_guild_key _ _ _ Hj) as Hk.
  destruct (joined_guild _ _ _ Hj) as [Hg _].
  unfold resume.
  rewrite (bind_run _ _ _ _ _ _ (get_voice_client_joined w _ c _ _ Hj)).
  rewrite prepend_nil. split; [|split].
  - intros ->. unfold guild_id_of. by rewrite Hg.
  - intros -> Hq.
    rewrite (bind_run _ _ _ _ _ _ (Queue_length_run _ _ _ Hk)). by rewrite Hq.
  - intros -> Hq.
    rewrite (bind_run _ _ _ _ _ _ (Queue_length_run _ _ _ Hk)).
    rewrite prepend_nil.
    rewrite bool_decide_eq_false_2
      by (destruct (songs c (str (guild_id g))); [done|simpl; lia]).
    unfold mbind, M_bind, bind. rewrite (play_queue_ensure _ _ _ _ Hk).
    destruct (play_queue w i None c) as [c' tr [[]|e]]; simpl;
      by rewrite ?app_nil_r.
Qed.

Lemma resume_cases_witness :
  resume world_cached guild1_paused (cog_guild1 [song_A] (Some song_B) 0)
  = mkRun (cog_guild1 [song_A] (Some song_B) 0)
      [ev_resume 1; send_answer "▶️ Resuming the song" []] (Return tt)
  ∧ resume world_cached guild1_idle (cog_guild1 [] (Some song_B) 2)
    = mkRun (cog_guild1 [] (Some song_B) 2)
        [send_error ["The queue is empty"]] (Return tt)
  ∧ played (trace (resume world_cached guild1_idle (cog_guild1 [song_A] None 0)))
    = [song_A].
Proof.
  split; [|split].
  - apply (resume_cases world_cached guild1_paused
             (cog_guild1 [song_A] (Some song_B) 0) _ _ eq_refl). reflexivity.
  - apply (resume_cases world_cached guild1_idle
             (cog_guild1 [] (Some song_B) 2) _ _ eq_refl); reflexivity.
  - destruct (resume_cases world_cached guild1_idle
                (cog_guild1 [song_A] None 0) _ _ eq_refl) as (_ & _ & Hadv).
    destruct (Hadv eq_refl ltac:(vm_compute; discriminate)) as (_ & _ & ->).
    reflexivity.
Defined.

(** ** The loop command *)

(** The loop command asked for the track ([what.value == 2]). *)
Lemma loop_command_track w i name c g vc :
  joined i = Some (g, vc) →
  loop_command w i (Choice name 2) c =
  let c1 := ensure (str (guild_id g)) c in
  match now_playing c with
  | None => mkRun c1 [send_error ["Nothing is playing"]] (Return tt)
  | Some _ =>
      if decide (loop c = 2) then
        mkRun (with_loop c1 0) [send_answer "🔁 Stopped looping" []] (Return tt)
      else
        mkRun (with_loop c1 2) [send_answer "🔂 Now looping current track" []]
          (Return tt)
  end.
Proof.
  intros Hj. pose proof (joined_guild_key _ _ _ Hj) as Hk.
  unfold loop_command.
  rewrite (bind_run _ _ _ _ _ _ (get_voice_client_joined w _ c _ _ Hj)).
  rewrite (bind_run _ _ _ _ _ _ (Queue_length_run _ _ _ Hk)).
  set (k := str (guild_id g)) in *. simpl.
  unfold_M. simpl.
  destruct (bool_decide (Z.of_nat (length (songs c k)) = 0)); simpl;
    (destruct (now_playing c) as [np|] eqn:Hnp; simpl; rewrite ?Hnp; simpl;
     [|reflexivity]);
    (destruct (decide (loop c = 2)) as [Hlp|Hlp];
     [rewrite (bool_decide_eq_true_2 (2 = loop c)) by done; reflexivity
     |rewrite (bool_decide_eq_false_2 (2 = loop c)) by done; reflexivity]).
Qed.

(** X10: the loop command for the track. It is turned down with "Nothing is
    playing" whenever [now_playing] is unset, also when the track loop is
    on, which this command can then not switch off. With a song playing it
    switches the track loop on, or off when it is on already; the queue may
    be empty and is not changed. *)
Theorem loop_track_command w i name c g vc :
  joined i = Some (g, vc) →
  let r := loop_command w i (Choice name 2) c in
  result r = Return tt
  ∧ now_playing (final r) = now_playing c
  ∧ (∀ k, songs (final r) k = songs c k)
  ∧ (now_playing c = None →
       loop (final r) = loop c ∧ trace r = [send_error ["Nothing is playing"]])
  ∧ (now_playing c ≠ None →
       loop (final r) = (if decide (loop c = 2) then 0 else 2)
       ∧ ∀ e, e ∈ trace r → user_error e = false).
Proof.
  intros Hj. simpl. rewrite (loop_command_track _ _ _ _ _ _ Hj). simpl.
  destruct (now_playing c) as [s|] eqn:Hnp.
  - destruct (decide (loop c = 2)); simpl;
      (split; [done|]; split; [done|]; split; [intros k; apply songs_ensure|];
       split; [done|]; intros _; split; [done|];
       by intros ev ->%list_elem_of_singleton).
  - simpl. split; [done|]. split; [done|].
    split; [intros k; apply songs_ensure|]. by split.
Qed.

Lemma loop_track_command_witness :
  loop (final (loop_command world_cached guild1_playing (Choice "Song" 2)
                 (cog_guild1 [] (Some song_A) 0))) = 2
  ∧ trace (loop_command world_cached guild1_playing (Choice "Song" 2)
             (cog_guild1 [song_B] None 2)) = [send_error ["Nothing is playing"]].
Proof.
  split.
  - destruct (loop_track_command world_cached guild1_playing "Song"
                (cog_guild1 [] (Some song_A) 0) _ _ eq_refl)
      as (_ & _ & _ & _ & Hon).
    destruct (Hon ltac:(discriminate)) as [Hlp _]. exact Hlp.
  - destruct (loop_track_command world_cached guild1_playing "Song"
                (cog_guild1 [song_B] None 2) _ _ eq_refl)
      as (_ & _ & _ & Hoff & _).
    destruct (Hoff eq_refl) as [_ Htr]. exact Htr.
Defined.

Lemma songs_with_loop c n k : songs (with_loop c n) k = songs c k.
Proof. reflexivity. Qed.

(** X11: the same loop command twice. Given twice in a row, from a state
    where it is accepted (the track loop with a song playing; the queue loop
    with a queue that is not empty and nothing playing), the loop command
    ends with the loop off when the mode asked for was off before, and with
    that mode on when it was on before. *)
Theorem loop_command_twice w i name v c g vc :
  joined i = Some (g, vc) →
  (v = 2 ∧ now_playing c ≠ None)
  ∨ (v = 1 ∧ now_playing c = None ∧ songs c (str (guild_id g)) ≠ []) →
  let c1 := final (loop_command w i (Choice name v) c) in
  let c2 := final (loop_command w i (Choice name v) c1) in
  loop c1 = (if decide (loop c = v) then 0 else v)
  ∧ loop c2 = (if decide (loop c = v) then v else 0).
Proof.
  intros Hj [[-> Hnp]|(-> & Hnp & Hq)]; simpl.
  - rewrite !(loop_command_track _ _ _ _ _ _ Hj). simpl.
    destruct (now_playing c) as [s|] eqn:Hnp'; [|by destruct Hnp].
    destruct (decide (loop c = 2)); simpl; rewrite Hnp'; simpl;
      repeat case_decide; simpl in *; done.
  - rewrite !(loop_command_queue _ _ _ _ _ _ Hj). simpl.
    rewrite decide_False by done. rewrite Hnp.
    destruct (decide (loop c = 1)); simpl;
      rewrite songs_with_loop, songs_ensure, decide_False by done; simpl;
      rewrite ?Hnp; repeat case_decide; simpl in *; done.
Qed.

Lemma loop_command_twice_witness :
  let c := cog_guild1 [song_B] None 0 in
  let c1 := final (loop_command world_cached guild1_playing (Choice "Queue" 1) c) in
  let c2 := final (loop_command world_cached guild1_playing (Choice "Queue" 1) c1) in
  loop c1 = 1 ∧ loop c2 = 0.
Proof.
  apply (loop_command_twice world_cached guild1_playing "Queue" 1
           (cog_guild1 [song_B] None 0) _ _ eq_refl).
  right. split; [reflexivity|]. split; [reflexivity|].
  vm_compute. discriminate.
Defined.

(** X12: the loop command without its argument. The signature gives [what]
    the plain integer [1] as default, and [what.value] is read on every
    path: once the tests on the voice channel are passed, the command ends
    in an [AttributeError], with nothing sent and the loop mode, the song
    playing and the queues as they were. *)
Theorem loop_default_argument_raises w i n c g vc :
  joined i = Some (g, vc) →
  loop_command w i (PlainInt n) c
  = mkRun (ensure (str (guild_id g)) c) [] (Raise AttributeError).
Proof.
  intros Hj. pose proof (joined_guild_key _ _ _ Hj) as Hk.
  unfold loop_command.
  rewrite (bind_run _ _ _ _ _ _ (get_voice_client_joined w _ c _ _ Hj)).
  rewrite (bind_run _ _ _ _ _ _ (Queue_length_run _ _ _ Hk)).
  set (k := str (guild_id g)) in *. simpl. unfold_M. simpl.
  destruct (bool_decide (Z.of_nat (length (songs c k)) = 0)); simpl;
    [reflexivity|].
  destruct (now_playing c) as [np|] eqn:Hnp; simpl; rewrite ?Hnp; reflexivity.
Qed.

Lemma loop_default_argument_raises_witness :
  result (loop_command world_cached guild1_playing (PlainInt 1)
            (cog_guild1 [song_A] None 0)) = Raise AttributeError.
Proof.
  by rewrite (loop_default_argument_raises world_cached guild1_playing 1
                (cog_guild1 [song_A] None 0) _ _ eq_refl).
Defined.

(** ** The shuffle command *)

(** X13: the shuffle command. With an empty queue it sends "The queue is
    empty" and shuffles nothing. Otherwise, the sample being a permutation,
    the queue afterwards holds the same songs as often as before, and the
    song playing, the loop mode and the skip flag are as they were. *)
Theorem shuffle_command_cases sample w i c g vc :
  joined i = Some (g, vc) →
  let k := str (guild_id g) in
  let r := shuffle_command sample w i c in
  (songs c k = [] →
     r = mkRun (ensure k c) [send_error ["The queue is empty"]] (Return tt))
  ∧ (songs c k ≠ [] → sample (songs c k) ≡ₚ songs c k →
       songs (final r) k ≡ₚ songs c k
       ∧ result r = Return tt
       ∧ trace r = [send_answer "🔀 Shuffling the queue" []]
       ∧ session_of (final r) i = session_of c i).
Proof.
  intros Hj. pose proof (joined_guild_key _ _ _ Hj) as Hk. simpl.
  unfold shuffle_command.
  rewrite (bind_run _ _ _ _ _ _ (get_voice_client_joined w _ c _ _ Hj)).
  rewrite (bind_run _ _ _ _ _ _ (Queue_length_run _ _ _ Hk)).
  rewrite !prepend_nil. split.
  - intros Hq. by rewrite Hq.
  - intros Hq Hperm.
    rewrite bool_decide_eq_false_2
      by (destruct (songs c (str (guild_id g))); [done|simpl; lia]).
    rewrite (bind_run _ _ _ _ _ _ (Queue_shuffle_run _ _ _ _ Hk)). simpl.
    rewrite songs_set_songs, songs_ensure. done.
Qed.

Lemma shuffle_command_cases_witness :
  songs (final (shuffle_command reverse world_cached guild1_playing
                  (cog_guild1 [song_A; song_B] (Some song_C) 1))) "1"
  ≡ₚ [song_A; song_B]
  ∧ shuffle_command reverse world_cached guild1_playing (cog_guild1 [] None 0)
    = mkRun (cog_guild1 [] None 0) [send_error ["The queue is empty"]] (Return tt).
Proof.
  split.
  - destruct (shuffle_command_cases reverse world_cached guild1_playing
                (cog_guild1 [song_A; song_B] (Some song_C) 1) _ _ eq_refl)
      as [_ Hsh].
    destruct (Hsh ltac:(vm_compute; discriminate) (reverse_Permutation _))
      as [Hperm _]. exact Hperm.
  - apply (shuffle_command_cases reverse world_cached guild1_playing
             (cog_guild1 [] None 0) _ _ eq_refl). reflexivity.
Defined.

(** ** The leave command *)

(** X14: leaving. When the user sits in the channel of the bot, the answer
    "Bot left" is sent whether the disconnect succeeds or raises, and an
    exception of the disconnect is raised on after it. In every other case
    one error message is sent. The cog is never changed: queue, song
    playing and loop mode stay until the reset of the next connect. *)
Theorem leave_answers disconnect i c :
  let r := leave disconnect i c in
  final r = c
  ∧ (∀ g vc, joined i = Some (g, vc) →
       trace r = [send_answer "🚪 Bot left" ["Goodbye."]]
       ∧ result r = match disconnect with
                    | Some e => Raise e
                    | None => Return tt
                    end)
  ∧ (joined i = None →
       result r = Return tt ∧ ∃ msg, trace r = [send_error [msg]]).
Proof.
  simpl. unfold leave, joined. destruct (user i) as [|v].
  { repeat split; try done. by eexists. }
  destruct (user_channel v).
  2:{ repeat split; try done. by eexists. }
  destruct (guild i) as [g|].
  2:{ repeat split; try done. by eexists. }
  destruct (voice_client g) as [vc|].
  2:{ repeat split; try done. by eexists. }
  case_decide.
  { repeat split; try done. by eexists. }
  unfold try_finally.
  destruct disconnect; simpl; (split; [done|]); (split; [|done]);
    by intros g' vc' [= <- <-].
Qed.

Lemma leave_answers_witness :
  let c := cog_guild1 [song_A] (Some song_B) 1 in
  leave (Some ClientException) guild1_playing c
  = mkRun c [send_answer "🚪 Bot left" ["Goodbye."]] (Raise ClientException).
Proof.
  destruct (leave_answers (Some ClientException) guild1_playing
              (cog_guild1 [song_A] (Some song_B) 1)) as (Hfin & Hin & _).
  destruct (Hin _ _ eq_refl) as [Htr Hres].
  destruct (leave (Some ClientException) guild1_playing
              (cog_guild1 [song_A] (Some song_B) 1)) as [c' tr res].
  simpl in *. by subst.
Defined.

(** ** More on advances *)

Lemma smooth_tail gid s q a : smooth gid (s :: q) a = true → smooth gid q a = true.
Proof.
  unfold smooth. rewrite !andb_true_iff. simpl. rewrite andb_true_iff.
  intros [[[He Hg] [_ Hq]] Hp]. done.
Qed.

Lemma forallb_smooth_tail gid s q calls :
  forallb (smooth gid (s :: q)) calls = true → forallb (smooth gid q) calls = true.
Proof.
  induction calls as [|a rest IH]; [done|]. cbn [forallb].
  rewrite !andb_true_iff. intros [Ha Hrest]. split; [|by apply IH].
  by eapply smooth_tail.
Qed.

(** One smooth advance with the loop off. *)
Lemma advance_no_loop gid a c q :
  loop c = 0 → skip_next_autoplay c = false →
  songs c (str gid) = q → smooth gid q a = true →
  let r := advance a c in
  loop (final r) = 0 ∧ skip_next_autoplay (final r) = false
  ∧ songs (final r) (str gid) = drop 1 q
  ∧ played (trace r) = take 1 q ∧ result r = Return tt.
Proof.
  intros Hlp Hs Hq Hsm. simpl.
  apply smooth_inv in Hsm as (He & (g & Hg & Hid & Hvc) & Hres & Hp).
  rewrite advance_run, Hs, andb_false_r, He.
  assert (Hk : guild_key (call_interaction a) = Some (str gid))
    by (unfold guild_key; by rewrite Hg, Hid).
  destruct q as [|s q].
  - rewrite play_queue_nothing by (rewrite ?Hk; simpl; rewrite ?Hq; done || lia).
    simpl. rewrite loop_checked, skip_checked, songs_checked. done.
  - rewrite (play_queue_pop _ _ _ _ _ _ Hk Hq) by lia.
    rewrite bool_decide_eq_false_2 by lia.
    assert (Hr : resolve_error (call_world a) s = None)
      by apply Hres, list_elem_of_here.
    pose proof (play_song_handoff (call_world a) (call_interaction a) s
                  (set_songs (str gid) q c) g Hr Hg Hvc Hp)
      as (Hfin & Hpl & Hret).
    simpl in Hfin, Hpl, Hret. split; [|split; [|split; [|done]]].
    + by destruct Hfin as [-> | ->].
    + by destruct Hfin as [-> | ->].
    + destruct Hfin as [-> | ->]; apply songs_set_songs.
Qed.

(** X15: playing the queue through. With the loop off and the skip flag
    off, advances that meet no obstacle hand the songs of the queue to the
    voice client in the order of the queue, one per advance, and take each
    one out of the queue; once the queue is empty, further advances hand
    over nothing and return. *)
Theorem queue_plays_in_order gid q calls c :
  loop c = 0 → skip_next_autoplay c = false →
  songs c (str gid) = q →
  forallb (smooth gid q) calls = true →
  played (advances calls c).2 = take (length calls) q
  ∧ songs (advances calls c).1 (str gid) = drop (length calls) q.
Proof.
  revert q c. induction calls as [|a rest IH]; intros q c Hlp Hs Hq Hall.
  { simpl. by rewrite Hq. }
  cbn [forallb] in Hall. apply andb_true_iff in Hall as [Ha Hrest].
  destruct (advance_no_loop gid a c q Hlp Hs Hq Ha)
    as (Hlp1 & Hs1 & Hq1 & Hpl1 & _).
  simpl in Hlp1, Hs1, Hq1, Hpl1.
  assert (Hrest1 : forallb (smooth gid (drop 1 q)) rest = true).
  { destruct q as [|s q]; [done|]. simpl. rewrite drop_0.
    by eapply forallb_smooth_tail. }
  destruct (IH (drop 1 q) (final (advance a c)) Hlp1 Hs1 Hq1 Hrest1)
    as (Hpl & Hdrop).
  cbn [advances]. destruct (advances rest (final (advance a c))) as [c' tr].
  cbn [fst snd length] in *. split.
  - rewrite played_app, Hpl1, Hpl. clear.
    destruct q; simpl; by rewrite ?drop_0, ?take_nil.
  - rewrite Hdrop. clear.
    destruct q; simpl; by rewrite ?drop_0, ?drop_nil.
Qed.

Lemma queue_plays_in_order_witness :
  let c := cog_guild1 [song_A; song_B] None 0 in
  let calls := replicate 3 (mkCall world_stream_only guild1_idle None true) in
  played (advances calls c).2 = [song_A; song_B]
  ∧ songs (advances calls c).1 "1" = [].
Proof.
  apply (queue_plays_in_order 1 [song_A; song_B]
           (replicate 3 (mkCall world_stream_only guild1_idle None true))
           (cog_guild1 [song_A; song_B] None 0));
    reflexivity.
Defined.

(** One advance under the track loop with no song playing. *)
Lemma advance_track_without_song a c :
  2 ≤ loop c → now_playing c = None →
  let r := advance a c in
  loop (final r) = loop c ∧ now_playing (final r) = None
  ∧ (∀ k, songs (final r) k = songs c k) ∧ played (trace r) = [].
Proof.
  intros Hlp Hnp. simpl. rewrite advance_run.
  destruct (via_callback a && skip_next_autoplay c); [done|].
  destruct (call_exception a) as [e|]; [by rewrite play_queue_exception|].
  rewrite play_queue_track by done. rewrite Hnp. simpl.
  rewrite loop_checked, now_playing_checked. repeat split; try done.
  intros k. apply songs_checked.
Qed.

(** X16: the track loop with no song. With the track loop on and
    [now_playing] unset, as after a stop under the track loop, no advance
    ever hands a song to the voice client, however many songs wait in the
    queues: the advances leave the queues, the loop mode and [now_playing]
    as they are. *)
Theorem track_loop_without_song_is_stuck calls c :
  2 ≤ loop c → now_playing c = None →
  played (advances calls c).2 = []
  ∧ now_playing (advances calls c).1 = None
  ∧ loop (advances calls c).1 = loop c
  ∧ ∀ k, songs (advances calls c).1 k = songs c k.
Proof.
  revert c. induction calls as [|a rest IH]; intros c Hlp Hnp; [done|].
  destruct (advance_track_without_song a c Hlp Hnp) as (Hlp1 & Hnp1 & Hq1 & Hpl1).
  simpl in Hlp1, Hnp1, Hq1, Hpl1.
  destruct (IH (final (advance a c)) ltac:(by rewrite Hlp1) Hnp1)
    as (Hpl & Hnp2 & Hlp2 & Hq2).
  cbn [advances]. destruct (advances rest (final (advance a c))) as [c' tr].
  cbn [fst snd] in *. split; [by rewrite played_app, Hpl1, Hpl|].
  split; [done|]. split; [by rewrite Hlp2|]. intros k. by rewrite Hq2.
Qed.

Lemma track_loop_without_song_is_stuck_witness :
  let c := final (stop world_cached guild1_playing
                    (cog_guild1 [song_B; song_C] (Some song_A) 2)) in
  let calls := [ mkCall world_cached guild1_idle None true;
                 mkCall world_cached guild1_idle None true;
                 mkCall world_cached guild1_idle None false ] in
  played (advances calls c).2 = []
  ∧ songs (advances calls c).1 "1" = [song_B; song_C].
Proof.
  destruct (track_loop_without_song_is_stuck
              [ mkCall world_cached guild1_idle None true;
                mkCall world_cached guild1_idle None true;
                mkCall world_cached guild1_idle None false ]
              (final (stop world_cached guild1_playing
                        (cog_guild1 [song_B; song_C] (Some song_A) 2))))
    as (Hpl & _ & _ & Hq).
  - vm_compute. discriminate.
  - reflexivity.
  - split; [exact Hpl|]. exact (Hq "1").
Defined.

Lemma play_song_outcome w i s c :
  let r := play_song w i s c in
  (played (trace r) = [] ∧ final r = c)
  ∨ (played (trace r) = [s]
     ∧ (final r = c ∨ (final r = with_now_playing c (Some s)
                       ∧ result r = Return tt))).
Proof.
  simpl. rewrite play_song_run.
  destruct (resolve_error w s); simpl; [rewrite played_downloads; auto|].
  destruct (guild i) as [g|]; simpl; [|rewrite played_downloads; auto].
  destruct (voice_client g); simpl; [|rewrite played_downloads; auto].
  destruct (play w); simpl; [rewrite played_app, played_downloads; auto|].
  destruct (source w); simpl; rewrite played_app, played_downloads; auto.
Qed.

Lemma play_queue_shape_session w i c :
  (∃ c', play_queue w i None c = mkRun c' [] (Return tt)
         ∧ session_of c' i = session_of c i)
  ∨ (∃ s c', play_queue w i None c = play_song w i s c'
             ∧ session_of c' i = session_of c i).
Proof.
  assert (Hch : session_of (checked i c) i = session_of c i).
  { unfold session_of. by rewrite now_playing_checked, loop_checked, skip_checked. }
  destruct (decide (loop c < 2)) as [Hlp|Hlp].
  - destruct (guild_key i) as [k|] eqn:Hk.
    + destruct (songs c k) as [|s q] eqn:Hq.
      * left. eexists. split; [apply play_queue_nothing|done].
        -- by rewrite Hk; simpl.
        -- done.
      * right. eexists _, _. split; [by eapply play_queue_pop|done].
    + left. eexists. split; [apply play_queue_nothing|done].
      * by rewrite Hk.
      * done.
  - rewrite play_queue_track by lia. destruct (now_playing c) as [s|] eqn:Hnp.
    + right. by eexists _, _.
    + left. by eexists.
Qed.

(** X17: what one advance can do to the session. [play_queue] never writes
    the loop mode or the skip flag, and hands at most one song to the voice
    client. It changes [now_playing] only by setting it to the song that it
    has just handed over, in a call that returns; it never unsets it. *)
Theorem advance_hands_one_song w i exception c :
  let r := play_queue w i exception c in
  loop (final r) = loop c
  ∧ skip_next_autoplay (final r) = skip_next_autoplay c
  ∧ ((played (trace r) = [] ∧ now_playing (final r) = now_playing c)
     ∨ ∃ s, played (trace r) = [s]
            ∧ (now_playing (final r) = now_playing c
               ∨ (now_playing (final r) = Some s ∧ result r = Return tt))).
Proof.
  simpl. destruct exception as [e|].
  { rewrite play_queue_exception. simpl. auto. }
  destruct (play_queue_shape_session w i c)
    as [(c' & -> & Hs)|(s & c' & -> & Hs)]; unfold session_of in Hs;
    simplify_eq.
  { simpl. auto. }
  destruct (play_song_outcome w i s c') as [[Hpl ->]|[Hpl [-> | [-> Hret]]]];
    simpl in *.
  - auto.
  - split; [done|]. split; [done|]. right. exists s. auto.
  - split; [done|]. split; [done|]. right. exists s. auto.
Qed.

(** X18: a failed advance uses up the song. When the media of the head of
    the queue cannot be had (the download fails with something else than an
    HTTP error, or the stream fails after one), [play_queue] raises that
    exception after it has taken the song out of the queue: with the loop
    off the song is gone without having been played, with the queue loop on
    it is at the tail. Nothing is handed to the voice client and
    [now_playing] is as before. *)
Theorem failed_advance_consumes_head w i k c s q e :
  guild_key i = Some k → songs c k = s :: q → loop c < 2 →
  resolve_error w s = Some e →
  let r := play_queue w i None c in
  result r = Raise e
  ∧ played (trace r) = []
  ∧ now_playing (final r) = now_playing c
  ∧ songs (final r) k = (if bool_decide (loop c = 1) then q ++ [s] else q).
Proof.
  intros Hk Hq Hlp He. cbv zeta.
  rewrite (play_queue_pop _ _ _ _ _ _ Hk Hq Hlp), play_song_run, He. simpl.
  rewrite played_downloads, songs_set_songs. done.
Qed.

Lemma failed_advance_consumes_head_witness :
  let c := cog_guild1 [song_A; song_B] (Some song_C) 0 in
  let r := play_queue world_offline guild1_idle None c in
  result r = Raise ConnectionError
  ∧ played (trace r) = []
  ∧ now_playing (final r) = Some song_C
  ∧ songs (final r) "1" = [song_B].
Proof.
  apply (failed_advance_consumes_head world_offline guild1_idle "1"
           (cog_guild1 [song_A; song_B] (Some song_C) 0) song_A [song_B]
           ConnectionError); try reflexivity.
Defined.

(** ** The queue listing *)

(** [queue_command] for a guild, page by page. *)
Lemma queue_command_run f i k c page :
  guild_key i = Some k →
  queue_command f i page c =
  let q := songs c k in
  let len := Z.of_nat (length q) in
  let max_page := ceil_div10 len in
  let err :=
    if (bool_decide (1 > page) || bool_decide (page > max_page))
       && bool_decide (max_page ≠ 0)
    then [send_error ["Out of queue bounds"]] else [] in
  if bool_decide (len > 0) then
    if bool_decide (page < 1) || bool_decide (10 * page > maxsize) then
      mkRun (ensure k c) err (Raise (OtherError "ValueError"))
    else
      mkRun (ensure k c)
        (err ++ [send_answer (listing_title len)
                   (listing_lead c
                    ++ [listing_header f (total_duration q) page max_page]
                    ++ imap (queue_line f (page - 1)) (page_of q page))])
        (Return tt)
  else
    mkRun (ensure k c)
      (err ++ [send_answer (listing_title len)
                 (listing_lead c ++ ["_Queue empty_"])])
      (Return tt).
Proof.
  intros Hk. unfold queue_command.
  rewrite (bind_run _ _ _ _ _ _ (Queue_length_run _ _ _ Hk)), prepend_nil.
  rewrite (bind_run _ _ _ _ _ _ (Queue_length_run _ _ _ Hk)), prepend_nil.
  rewrite ensure_twice, songs_ensure. cbv zeta.
  set (q := songs c k). set (len := Z.of_nat (length q)).
  set (max_page := ceil_div10 len).
  set (err_test := (bool_decide (1 > page) || bool_decide (page > max_page))
                   && bool_decide (max_page ≠ 0)).
  assert (Hd : Queue_duration i (ensure k c)
               = mkRun (ensure k c) [] (Return (total_duration q))).
  { rewrite (Queue_duration_run _ _ _ Hk). by rewrite ensure_twice, songs_ensure. }
  assert (Hg : Queue_get i (ensure k c) = mkRun (ensure k c) [] (Return q)).
  { rewrite (Queue_get_run _ _ _ Hk). by rewrite ensure_twice, songs_ensure. }
  unfold mbind, M_bind, bind, gets.
  destruct err_test; simpl;
    (destruct (bool_decide (len > 0)) eqn:Hlen; simpl;
     [ rewrite Hd; simpl; rewrite Hg; simpl; unfold islice;
       replace (bool_decide (10 * (page - 1) < 0)
                || bool_decide (10 * (page - 1 + 1) < 0)
                || bool_decide (10 * (page - 1) > maxsize)
                || bool_decide (10 * (page - 1 + 1) > maxsize))
         with (bool_decide (page < 1) || bool_decide (10 * page > maxsize))
         by (unfold maxsize; repeat case_bool_decide; simpl; lia);
       destruct (bool_decide (page < 1) || bool_decide (10 * page > maxsize))
         eqn:Hpage; simpl; [reflexivity|];
       rewrite (bool_decide_eq_false_2 (len = 0))
         by (apply bool_decide_eq_true in Hlen; lia);
       unfold page_of, listing_lead, listing_header, listing_title;
       replace (page - 1 + 1) with page by lia;
       replace (Z.to_nat (10 * page - 10 * (page - 1))) with 10%nat by lia;
       destruct (now_playing c), (bool_decide (loop c > 0)); simpl;
       rewrite <-?app_assoc; reflexivity
     | rewrite (bool_decide_eq_true_2 (len = 0))
         by (apply bool_decide_eq_false in Hlen; lia);
       unfold listing_lead, listing_title;
       destruct (now_playing c), (bool_decide (loop c > 0)); simpl;
       reflexivity ]).
Qed.

Lemma queue_command_no_guild f i c page :
  guild_key i = None →
  queue_command f i page c =
  mkRun c [send_answer (listing_title 0) (listing_lead c ++ ["_Queue empty_"])]
    (Return tt).
Proof.
  intros Hk. unfold queue_command.
  rewrite (bind_run _ _ _ _ _ _ (Queue_length_none _ _ Hk)), prepend_nil.
  rewrite (bind_run _ _ _ _ _ _ (Queue_length_none _ _ Hk)), prepend_nil.
  unfold mbind, M_bind, bind, gets, listing_lead, listing_title. simpl.
  rewrite andb_false_r. simpl.
  destruct (now_playing c), (bool_decide (loop c > 0)); simpl;
    rewrite ?app_nil_r; reflexivity.
Qed.

Lemma ceil_div10_le n p : p ≤ ceil_div10 n ↔ 10 * (p - 1) < n.
Proof.
  unfold ceil_div10.
  pose proof (Z.div_mod (n + 9) 10 ltac:(lia)).
  pose proof (Z.mod_pos_bound (n + 9) 10 ltac:(lia)). lia.
Qed.

Lemma length_page_of q page :
  length (page_of q page)
  = (10 `min` (length q - Z.to_nat (10 * (page - 1))))%nat.
Proof. unfold page_of. by rewrite length_take, length_drop. Qed.

(** X19: a page of the listing. For a page between 1 and the number of
    pages of a queue that is not empty (and small enough for [islice]: ten
    times the page at most [sys.maxsize]), the queue command sends no error
    and one answer; after the lines on the song playing and the loop mode
    and the header with the total duration of the queue, the answer lists
    the songs at the positions [10 * (page - 1) + 1] to [10 * page] of the
    queue, as many as there are, at least one and at most ten, each under
    its position. Listing does not change the songs of any queue or the
    session. *)
Theorem queue_listing_page f i k c page :
  guild_key i = Some k → songs c k ≠ [] →
  1 ≤ page ≤ ceil_div10 (Z.of_nat (length (songs c k))) →
  10 * page ≤ maxsize →
  let r := queue_command f i page c in
  let len := Z.of_nat (length (songs c k)) in
  result r = Return tt
  ∧ trace r
    = [send_answer (listing_title len)
         (listing_lead c
          ++ [listing_header f (total_duration (songs c k)) page (ceil_div10 len)]
          ++ imap (queue_line f (page - 1)) (page_of (songs c k) page))]
  ∧ (1 ≤ length (page_of (songs c k) page) ≤ 10)%nat
  ∧ (∀ k', songs (final r) k' = songs c k')
  ∧ session_of (final r) i = session_of c i.
Proof.
  intros Hk Hq [Hlo Hhi] Hmaxsize. cbv zeta.
  rewrite (queue_command_run _ _ _ _ _ Hk).
  cbv zeta. set (len := Z.of_nat (length (songs c k))) in *.
  assert (Hlen : len > 0) by (unfold len; destruct (songs c k); [done|simpl; lia]).
  rewrite (bool_decide_eq_true_2 (len > 0)) by done.
  rewrite (bool_decide_eq_false_2 (page < 1)) by lia.
  rewrite (bool_decide_eq_false_2 (10 * page > maxsize)) by lia.
  rewrite (bool_decide_eq_false_2 (1 > page)) by lia.
  rewrite (bool_decide_eq_false_2 (page > ceil_div10 len)) by lia.
  simpl. split; [done|]. split; [done|]. split.
  - rewrite length_page_of. apply ceil_div10_le in Hhi. unfold len in Hhi. lia.
  - split; [|done]. intros k'. apply songs_ensure.
Qed.

Lemma queue_listing_page_witness :
  let c := cog_guild1 [song_A; song_B] (Some song_C) 1 in
  trace (queue_command seconds_plain guild1_idle 1 c)
  = [send_answer "🎹 Queue (2 songs remaining)"
       (listing_lead c
        ++ [listing_header seconds_plain 380 1 1]
        ++ ["1. Ann - **Alpha**" +:+ tab +:+ "[180s]";
            "2. Bob - **Beta**" +:+ tab +:+ "[200s]"])].
Proof.
  destruct (queue_listing_page seconds_plain guild1_idle "1"
              (cog_guild1 [song_A; song_B] (Some song_C) 1) 1 eq_refl
              ltac:(vm_compute; discriminate)
              ltac:(vm_compute; split; discriminate)
              ltac:(vm_compute; discriminate))
    as (_ & Htr & _).
  cbv zeta. rewrite Htr. vm_compute. reflexivity.
Defined.

(** X20: every song has its page. The song at index [j] of a queue is on
    page [j / 10 + 1], in line [j mod 10], and that page is between 1 and
    the number of pages that the listing computes. *)
Theorem every_song_has_a_page (q : list Song) (j : nat) :
  (j < length q)%nat →
  page_of q (Z.of_nat (j / 10) + 1) !! (j mod 10)%nat = q !! j
  ∧ 1 ≤ Z.of_nat (j / 10) + 1 ≤ ceil_div10 (Z.of_nat (length q)).
Proof.
  intros Hj. pose proof (Nat.div_mod_eq j 10) as Hdm.
  pose proof (Nat.mod_upper_bound j 10 ltac:(lia)) as Hm. split.
  - unfold page_of.
    rewrite lookup_take_lt by done. rewrite lookup_drop. f_equal. lia.
  - split; [lia|]. apply ceil_div10_le. lia.
Qed.

Lemma every_song_has_a_page_witness :
  page_of (replicate 11 song_A ++ [song_B]) 2 !! 1%nat = Some song_B.
Proof.
  destruct (every_song_has_a_page (replicate 11 song_A ++ [song_B]) 11
              ltac:(vm_compute; lia)) as [Hpage _].
  exact Hpage.
Defined.

(** X21: page zero. Asked for a page below 1 of a queue that is not empty,
    the queue command sends the error "Out of queue bounds", does not
    return there, and ends in the [ValueError] of [islice], whose start
    index is negative; no listing is sent. *)
Theorem queue_listing_below_first_page f i k c page :
  guild_key i = Some k → songs c k ≠ [] → page < 1 →
  queue_command f i page c
  = mkRun (ensure k c) [send_error ["Out of queue bounds"]]
      (Raise (OtherError "ValueError")).
Proof.
  intros Hk Hq Hpage. rewrite (queue_command_run _ _ _ _ _ Hk). cbv zeta.
  set (len := Z.of_nat (length (songs c k))) in *.
  assert (Hlen : len > 0) by (unfold len; destruct (songs c k); [done|simpl; lia]).
  assert (Hmax : 1 ≤ ceil_div10 len) by (apply ceil_div10_le; lia).
  rewrite (bool_decide_eq_true_2 (len > 0)) by done.
  rewrite (bool_decide_eq_true_2 (page < 1)) by lia.
  rewrite (bool_decide_eq_true_2 (1 > page)) by lia. rewrite !orb_true_l.
  rewrite (bool_decide_eq_true_2 (ceil_div10 len ≠ 0)) by lia.
  reflexivity.
Qed.

Lemma queue_listing_below_first_page_witness :
  queue_command seconds_plain guild1_idle 0 (cog_guild1 [song_A] None 0)
  = mkRun (cog_guild1 [song_A] None 0) [send_error ["Out of queue bounds"]]
      (Raise (OtherError "ValueError")).
Proof.
  apply (queue_listing_below_first_page seconds_plain guild1_idle "1"
           (cog_guild1 [song_A] None 0) 0 eq_refl).
  - vm_compute. discriminate.
  - lia.
Defined.

(** X22: a page past the last. Asked for a page above the number of pages
    of a queue that is not empty (ten times the page being at most
    [sys.maxsize]), the queue command sends the error "Out of
    queue bounds" and then, as it does not return there, also the answer
    with the title, the header and no song under it. *)
Theorem queue_listing_past_last_page f i k c page :
  guild_key i = Some k → songs c k ≠ [] →
  page > ceil_div10 (Z.of_nat (length (songs c k))) →
  10 * page ≤ maxsize →
  let len := Z.of_nat (length (songs c k)) in
  queue_command f i page c
  = mkRun (ensure k c)
      [send_error ["Out of queue bounds"];
       send_answer (listing_title len)
         (listing_lead c
          ++ [listing_header f (total_duration (songs c k)) page (ceil_div10 len)])]
      (Return tt).
Proof.
  intros Hk Hq Hpage Hmaxsize. cbv zeta.
  rewrite (queue_command_run _ _ _ _ _ Hk).
  cbv zeta. set (len := Z.of_nat (length (songs c k))) in *.
  assert (Hlen : len > 0) by (unfold len; destruct (songs c k); [done|simpl; lia]).
  assert (Hmax : 1 ≤ ceil_div10 len) by (apply ceil_div10_le; lia).
  rewrite (bool_decide_eq_true_2 (len > 0)) by done.
  rewrite (bool_decide_eq_false_2 (page < 1)) by lia.
  rewrite (bool_decide_eq_false_2 (10 * page > maxsize)) by lia.
  rewrite (bool_decide_eq_true_2 (page > ceil_div10 len)) by lia.
  rewrite (bool_decide_eq_true_2 (ceil_div10 len ≠ 0)) by lia.
  rewrite orb_true_r. simpl.
  assert (Hnil : page_of (songs c k) page = []).
  { apply length_zero_iff_nil. rewrite length_page_of.
    assert (¬ page ≤ ceil_div10 len) as Hn by lia.
    rewrite ceil_div10_le in Hn. unfold len in Hn. lia. }
  by rewrite Hnil.
Qed.

Lemma queue_listing_past_last_page_witness :
  trace (queue_command seconds_plain guild1_idle 2 (cog_guild1 [song_A] None 0))
  = [send_error ["Out of queue bounds"];
     send_answer "🎹 Queue (1 songs remaining)"
       [listing_header seconds_plain 180 2 1]].
Proof.
  rewrite (queue_listing_past_last_page seconds_plain guild1_idle "1"
             (cog_guild1 [song_A] None 0) 2 eq_refl
             ltac:(vm_compute; discriminate) ltac:(vm_compute; reflexivity)
             ltac:(vm_compute; discriminate)).
  reflexivity.
Defined.

(** X23: the listing of an empty queue. With no song queued, or without a
    guild, every page number is accepted: no error is sent, and the one
    answer carries the lines on the song playing and the loop mode and the
    line "_Queue empty_". *)
Theorem queue_listing_empty f i c page :
  default [] (songs c <$> guild_key i) = [] →
  queue_command f i page c
  = mkRun (checked i c)
      [send_answer (listing_title 0) (listing_lead c ++ ["_Queue empty_"])]
      (Return tt).
Proof.
  unfold checked. destruct (guild_key i) as [k|] eqn:Hk; simpl; intros Hq.
  - rewrite (queue_command_run _ _ _ _ _ Hk). cbv zeta. rewrite Hq. simpl.
    by rewrite andb_false_r.
  - by apply queue_command_no_guild.
Qed.

Lemma queue_listing_empty_witness :
  trace (queue_command seconds_plain guild1_idle (-5)
           (cog_guild1 [] (Some song_A) 2))
  = [send_answer "🎹 Queue (0 songs remaining)"
       ["Now playing: Ann - **Alpha**"; ""; "Looping track"; "_Queue empty_"]].
Proof.
  by rewrite (queue_listing_empty seconds_plain guild1_idle
                (cog_guild1 [] (Some song_A) 2) (-5) eq_refl).
Defined.

(** ** The names of the autocomplete choices *)

(** X24: names fit. With a suffix of at most 97 characters, the name of a
    choice has at most 100 characters and ends with the suffix. A text that
    fits with its suffix is kept whole; a longer one gives a name of
    exactly 100 characters: the first [97 - len(suffix)] characters of the
    text, three dots and the suffix. *)
Theorem choice_name_fits {A} (dot : A) (res suffix : list A) :
  (length suffix ≤ 97)%nat →
  (length (choice_name dot res suffix) ≤ 100)%nat
  ∧ suffix `suffix_of` choice_name dot res suffix
  ∧ ((length res + length suffix ≤ 100)%nat →
       choice_name dot res suffix = res ++ suffix)
  ∧ ((length res + length suffix > 100)%nat →
       choice_name dot res suffix
       = take (97 - length suffix) res ++ [dot; dot; dot] ++ suffix
       ∧ length (choice_name dot res suffix) = 100%nat).
Proof.
  intros Hs. unfold choice_name, slice_to.
  case_bool_decide as Hlong.
  - rewrite (bool_decide_eq_true_2 (0 ≤ 97 - Z.of_nat (length suffix))) by lia.
    replace (Z.to_nat (97 - Z.of_nat (length suffix)))
      with (97 - length suffix)%nat by lia.
    assert (Hlen : length (take (97 - length suffix) res ++ [dot; dot; dot] ++ suffix)
                   = 100%nat).
    { rewrite !length_app, length_take. simpl. lia. }
    split; [lia|]. split; [|split; [lia|done]].
    eexists (_ ++ _). by rewrite <-app_assoc.
  - split; [rewrite length_app; lia|]. split; [by eexists|].
    split; [done|lia].
Qed.

Lemma choice_name_fits_witness :
  choice_name 46%N (replicate 120 65%N) [91; 51; 58; 48; 48; 93]%N
  = replicate 91 65%N ++ [46; 46; 46]%N ++ [91; 51; 58; 48; 48; 93]%N.
Proof.
  destruct (choice_name_fits 46%N (replicate 120 65%N)
              [91; 51; 58; 48; 48; 93]%N ltac:(simpl; lia))
    as (_ & _ & _ & Hcut).
  destruct (Hcut ltac:(rewrite length_replicate; simpl; lia)) as [-> _].
  reflexivity.
Defined.

(** ** The play command *)

Lemma guild_key_with_voice_client i vc :
  guild_key (with_voice_client i vc) = guild_key i.
Proof. unfold guild_key, with_voice_client. simpl. by destruct (guild i). Qed.

Lemma with_voice_client_joined i g vc :
  joined i = Some (g, vc) → with_voice_client i vc = i.
Proof.
  intros Hj. destruct (joined_guild _ _ _ Hj) as [Hg Hvc].
  unfold with_voice_client. rewrite Hg. destruct i as [gi ui], g as [gid gvc].
  simpl in *. by subst.
Qed.

Lemma get_voice_client_connect_joined w i c g vc :
  joined i = Some (g, vc) →
  get_voice_client w i true c = mkRun c [] (Return (Some vc)).
Proof.
  intros Hj. destruct (joined_guild _ _ _ Hj) as [Hg Hvc].
  rewrite (get_voice_client_connected _ _ _ _ _ Hg Hvc).
  by apply (get_voice_client_joined _ _ _ g).
Qed.

Lemma to_Song_run song t a rest c :
  sub_artists song = a :: rest →
  to_Song song t c = mkRun c [] (Return (mkSong (sub_id song) t a (sub_duration song))).
Proof. unfold to_Song. by intros ->. Qed.

(** The play command for a song that the server knows, from the point where
    [get_voice_client] has returned a voice client. *)
Lemma play_command_song sub w i query c c0 tr vc k value song t a rest :
  get_voice_client w i true c = mkRun c0 tr (Return (Some vc)) →
  guild_key i = Some k →
  split_on colon query = ["song"; value] →
  get_song sub value = Return (Some song) →
  sub_title song = Some t → sub_artists song = a :: rest →
  let s := mkSong (sub_id song) t a (sub_duration song) in
  let c1 := set_songs k (songs c0 k ++ [s]) c0 in
  play_command sub w i query c =
  prepend
    (tr ++ [send_answer
              (if bool_decide (Z.of_nat (length (songs c0 k)) = 0)
                  && bool_decide (now_playing c0 = None)
               then "🎵 Now playing!" else "🎧 Added to the queue")
              [added_line t 0]])
    (if is_playing vc then mkRun c1 [] (Return tt)
     else play_queue w (with_voice_client i vc) None c1).
Proof.
  intros Hgvc Hk Hsplit Hsong Ht Ha. cbv zeta. unfold play_command.
  rewrite (bind_run _ _ _ _ _ _ Hgvc). rewrite Hsplit. cbv zeta.
  assert (Hk' : guild_key (with_voice_client i vc) = Some k)
    by (by rewrite guild_key_with_voice_client).
  rewrite (bind_run _ _ _ _ _ _ (Queue_length_run _ _ _ Hk')), prepend_nil.
  change (String.eqb "song" "song") with true. cbv iota.
  unfold mbind at 1, M_bind at 1, bind at 1, gets at 1.
  unfold mbind at 1, M_bind at 1, bind at 1.
  unfold mbind at 1, M_bind at 1, bind at 1, lift at 1. rewrite Hsong, Ht.
  rewrite prepend_nil.
  unfold mbind at 1, M_bind at 1, bind at 1.
  rewrite (to_Song_run _ _ _ _ _ Ha), prepend_nil.
  unfold mbind at 1, M_bind at 1, bind at 1.
  rewrite (Queue_append_run _ _ _ _ Hk'). cbn [prepend ret app].
  rewrite set_songs_ensure, songs_ensure.
  cbn [now_playing ensure set_songs with_dict].
  unfold mbind at 1, M_bind at 1, bind at 1, emit at 1.
  destruct (is_playing vc); cbn [negb].
  - cbn [ret prepend app]. by rewrite app_nil_r.
  - destruct (play_queue _ _ _ _) as [c2 tr2 res2].
    cbn [prepend]. by rewrite <-!app_assoc.
Qed.

Lemma get_voice_client_connect_run w i c vs ch g :
  user i = Member (Some vs) → voice_channel vs = Some ch →
  guild i = Some g → voice_client g = None →
  get_voice_client w i true c =
  mkRun (reset (str (guild_id g)) c) [ev_connect ch]
    match connect w with
    | Some e => Raise e
    | None => Return (Some (mkVoiceClient ch false false))
    end.
Proof.
  intros Hu Hch Hg Hvc.
  assert (Hk : guild_key i = Some (str (guild_id g)))
    by (unfold guild_key; by rewrite Hg).
  unfold get_voice_client. rewrite Hu. simpl. rewrite Hch, Hg, Hvc.
  rewrite (bind_run _ _ _ _ _ _ (Queue_clear_run _ _ _ Hk)).
  unfold_M. simpl. by destruct (connect w).
Qed.

(** X25: a song asked for while another plays. With the bot playing in the
    channel of the user, the play command for a song that the server knows
    appends it at the tail of the queue of the guild and confirms with one
    answer; it hands nothing to the voice client and leaves the song
    playing, the loop mode and the skip flag as they are. *)
Theorem play_queues_behind sub w i query c g vc value song t a rest :
  joined i = Some (g, vc) → is_playing vc = true →
  split_on colon query = ["song"; value] →
  get_song sub value = Return (Some song) →
  sub_title song = Some t → sub_artists song = a :: rest →
  let s := mkSong (sub_id song) t a (sub_duration song) in
  let k := str (guild_id g) in
  play_command sub w i query c
  = mkRun (set_songs k (songs c k ++ [s]) c)
      [send_answer
         (if bool_decide (Z.of_nat (length (songs c k)) = 0)
             && bool_decide (now_playing c = None)
          then "🎵 Now playing!" else "🎧 Added to the queue")
         [added_line t 0]]
      (Return tt).
Proof.
  intros Hj Hp Hsplit Hsong Ht Ha. cbv zeta.
  rewrite (play_command_song sub w i query c c [] vc (str (guild_id g))
             value song t a rest
             (get_voice_client_connect_joined _ _ _ _ _ Hj)
             (joined_guild_key _ _ _ Hj) Hsplit Hsong Ht Ha).
  by rewrite Hp.
Qed.

Lemma play_queues_behind_witness :
  play_command subsonic_demo world_cached guild1_playing "song:b2"
    (cog_guild1 [song_C] (Some song_A) 0)
  = mkRun (cog_guild1 [song_C; song_B] (Some song_A) 0)
      [send_answer "🎧 Added to the queue" ["**Beta**"]] (Return tt).
Proof.
  rewrite (play_queues_behind subsonic_demo world_cached guild1_playing
             "song:b2" (cog_guild1 [song_C] (Some song_A) 0) _ _ "b2" sub_B
             "Beta" "Bob" [] eq_refl eq_refl eq_refl eq_refl eq_refl eq_refl).
  reflexivity.
Defined.

(** X26: a song asked for while nothing plays. With the bot connected in
    the channel of the user and not playing, the play command appends the
    song and then advances: with the loop off or the queue loop on and
    nothing in the way, the song handed to the voice client is the head of
    the queue, which is the song asked for only when the queue was empty. *)
Theorem play_starts_the_head sub w i query c g vc value song t a rest h q :
  joined i = Some (g, vc) → is_playing vc = false →
  split_on colon query = ["song"; value] →
  get_song sub value = Return (Some song) →
  sub_title song = Some t → sub_artists song = a :: rest →
  let s := mkSong (sub_id song) t a (sub_duration song) in
  let k := str (guild_id g) in
  songs c k ++ [s] = h :: q →
  loop c < 2 → resolve_error w h = None → play w = None →
  let r := play_command sub w i query c in
  result r = Return tt
  ∧ played (trace r) = [h]
  ∧ songs (final r) k = (if bool_decide (loop c = 1) then q ++ [h] else q)
  ∧ (source w = true → now_playing (final r) = Some h).
Proof.
  intros Hj Hp Hsplit Hsong Ht Ha. cbv zeta. intros Hq Hlp Hres Hplay.
  pose proof (joined_guild_key _ _ _ Hj) as Hk.
  destruct (joined_guild _ _ _ Hj) as [Hg Hvc].
  rewrite (play_command_song sub w i query c c [] vc (str (guild_id g))
             value song t a rest
             (get_voice_client_connect_joined _ _ _ _ _ Hj)
             Hk Hsplit Hsong Ht Ha).
  rewrite Hp, (with_voice_client_joined _ _ _ Hj). cbv zeta.
  set (c1 := set_songs _ _ c).
  assert (Hq1 : songs c1 (str (guild_id g)) = h :: q)
    by (unfold c1; by rewrite songs_set_songs).
  rewrite (play_queue_pop _ _ _ _ _ _ Hk Hq1) by done.
  rewrite play_song_run, Hres, Hg, Hvc, Hplay.
  change (loop c1) with (loop c).
  destruct (source w); simpl; rewrite played_app, played_downloads; simpl;
    rewrite ?songs_set_songs; split; try done; split; try done;
    split; try done; unfold songs, dict; simpl;
    apply (songs_set_songs (str (guild_id g)) _ c1).
Qed.

Lemma play_starts_the_head_witness :
  let r := play_command subsonic_demo world_cached guild1_idle "song:b2"
             (cog_guild1 [song_C] None 0) in
  played (trace r) = [song_C] ∧ songs (final r) "1" = [song_B]
  ∧ now_playing (final r) = Some song_C.
Proof.
  destruct (play_starts_the_head subsonic_demo world_cached guild1_idle
              "song:b2" (cog_guild1 [song_C] None 0) _ _ "b2" sub_B
              "Beta" "Bob" [] song_C [song_B]
              eq_refl eq_refl eq_refl eq_refl eq_refl eq_refl eq_refl
              ltac:(reflexivity) eq_refl eq_refl)
    as (_ & Hpl & Hq & Hnp).
  split; [exact Hpl|]. split; [exact Hq|]. exact (Hnp eq_refl).
Defined.

(** X27: the first play. In a guild where the bot is not connected, the
    play command connects to the channel of the user, which resets the
    session, and the song asked for is then alone in the queue: with
    nothing in the way it is handed to the voice client at once, the queue
    is empty afterwards, and the answer is "Now playing!". Songs that were
    queued before are gone, and so is a loop mode. *)
Theorem first_play_connects_and_starts sub w i query c vs ch g value song t a rest :
  user i = Member (Some vs) → voice_channel vs = Some ch →
  guild i = Some g → voice_client g = None → connect w = None →
  split_on colon query = ["song"; value] →
  get_song sub value = Return (Some song) →
  sub_title song = Some t → sub_artists song = a :: rest →
  let s := mkSong (sub_id song) t a (sub_duration song) in
  resolve_error w s = None → play w = None →
  let r := play_command sub w i query c in
  result r = Return tt
  ∧ played (trace r) = [s]
  ∧ songs (final r) (str (guild_id g)) = []
  ∧ loop (final r) = 0
  ∧ (source w = true → now_playing (final r) = Some s)
  ∧ ∃ tr, trace r
          = ev_connect ch :: send_answer "🎵 Now playing!" [added_line t 0] :: tr.
Proof.
  intros Hu Hch Hg Hvc Hc Hsplit Hsong Ht Ha. cbv zeta. intros Hres Hplay.
  assert (Hk : guild_key i = Some (str (guild_id g)))
    by (unfold guild_key; by rewrite Hg).
  pose proof (get_voice_client_connect_run w i c vs ch g Hu Hch Hg Hvc) as Hgvc.
  rewrite Hc in Hgvc.
  rewrite (play_command_song sub w i query c _ _ _ (str (guild_id g))
             value song t a rest Hgvc Hk Hsplit Hsong Ht Ha).
  cbn [is_playing]. cbv zeta.
  set (k := str (guild_id g)) in *.
  set (s := mkSong (sub_id song) t a (sub_duration song)) in *.
  assert (Hq0 : songs (reset k c) k = []) by apply songs_set_songs.
  rewrite Hq0. simpl app.
  set (c1 := set_songs k [s] (reset k c)).
  assert (Hq1 : songs c1 k = [s]) by apply songs_set_songs.
  assert (Hk' : guild_key (with_voice_client i (mkVoiceClient ch false false))
                = Some k) by (by rewrite guild_key_with_voice_client).
  rewrite (play_queue_pop _ _ _ _ _ _ Hk' Hq1) by (simpl; lia).
  assert (Hg' : guild (with_voice_client i (mkVoiceClient ch false false))
                = Some (mkGuild (guild_id g) (Some (mkVoiceClient ch false false))))
    by (unfold with_voice_client; simpl; by rewrite Hg).
  rewrite play_song_run, Hres, Hplay, Hg'. cbn [voice_client guild_id].
  change (loop c1) with 0. rewrite bool_decide_eq_false_2 by lia.
  destruct (source w); cbn [prepend final trace result];
    rewrite !played_app, played_downloads; simpl;
    (split; [done|]; split; [done|];
     split; [apply (songs_set_songs k [] c1)|];
     split; [done|]; split; [done|]; by eexists).
Qed.

Lemma first_play_connects_and_starts_witness :
  let r := play_command subsonic_demo world_cached guild1_unconnected "song:a1"
             (cog_guild1 [song_C] (Some song_B) 2) in
  played (trace r) = [song_A] ∧ songs (final r) "1" = []
  ∧ loop (final r) = 0 ∧ now_playing (final r) = Some song_A.
Proof.
  destruct (first_play_connects_and_starts subsonic_demo world_cached
              guild1_unconnected "song:a1" (cog_guild1 [song_C] (Some song_B) 2)
              _ _ _ "a1" sub_A "Alpha" "Ann" []
              eq_refl eq_refl eq_refl eq_refl eq_refl eq_refl eq_refl eq_refl
              eq_refl eq_refl eq_refl)
    as (_ & Hpl & Hq & Hlp & Hnp & _).
  split; [exact Hpl|]. split; [exact Hq|]. split; [exact Hlp|].
  exact (Hnp eq_refl).
Defined.

(** X28: a query that is not of the form [kind:id]. When the query does not
    split at [:] into exactly two parts, the play command raises a
    [ValueError], but only after [get_voice_client] has done its work: in a
    guild where the bot was not connected it has connected by then, and the
    queue and the session are reset. *)
Theorem play_malformed_query sub w i query c c0 tr vc :
  length (split_on colon query) ≠ 2%nat →
  get_voice_client w i true c = mkRun c0 tr (Return (Some vc)) →
  play_command sub w i query c = mkRun c0 tr (Raise (OtherError "ValueError")).
Proof.
  intros Hlen Hgvc. unfold play_command.
  rewrite (bind_run _ _ _ _ _ _ Hgvc).
  destruct (split_on colon query) as [|x [|y [|z l]]]; simpl in *;
    try (by rewrite app_nil_r). done.
Qed.

Lemma play_malformed_query_witness :
  play_command subsonic_demo world_cached guild1_unconnected "a1"
    (cog_guild1 [song_C] (Some song_B) 2)
  = mkRun (cog_guild1 [] None 0) [ev_connect 7] (Raise (OtherError "ValueError")).
Proof.
  apply (play_malformed_query subsonic_demo world_cached guild1_unconnected
           "a1" (cog_guild1 [song_C] (Some song_B) 2) (cog_guild1 [] None 0)
           [ev_connect 7] (mkVoiceClient 7 false false)).
  - vm_compute. lia.
  - vm_compute. reflexivity.
Defined.

(** The album loop on songs that can all be converted. *)
Lemma append_album_run i k l n c :
  guild_key i = Some k → forallb convertible l = true →
  append_album i l n c =
  mkRun (match omap song_of l with
         | [] => c
         | _ => set_songs k (songs c k ++ omap song_of l) c
         end)
    [] (Return (n + Z.of_nat (length (omap song_of l)))).
Proof.
  intros Hk. revert n c. induction l as [|song l IH]; intros n c Hall.
  { simpl. by rewrite Z.add_0_r. }
  cbn [forallb] in Hall. apply andb_true_iff in Hall as [Hsong Hl].
  cbn [append_album]. unfold convertible in Hsong.
  destruct (sub_title song) as [t|] eqn:Ht.
  - destruct (sub_artists song) as [|a rest] eqn:Ha; [done|].
    rewrite (bind_run _ _ _ _ _ _ (to_Song_run _ t _ _ _ Ha)), prepend_nil.
    rewrite (bind_run _ _ _ _ _ _ (Queue_append_run _ _ _ _ Hk)), prepend_nil.
    rewrite (IH _ _ Hl).
    assert (Hs : song_of song
                 = Some (mkSong (sub_id song) t a (sub_duration song)))
      by (unfold song_of; by rewrite Ht, Ha).
    rewrite (omap_cons_Some _ _ _ _ Hs). cbn [length].
    rewrite songs_set_songs, set_songs_twice, <-app_assoc. simpl app.
    f_equal; [by destruct (omap song_of l)|]. f_equal. lia.
  - rewrite (IH _ _ Hl).
    assert (Hs : song_of song = None) by (unfold song_of; by rewrite Ht).
    change (omap song_of (song :: l))
      with (match song_of song with
            | Some y => y :: omap song_of l
            | None => omap song_of l
            end).
    by rewrite Hs.
Qed.

(** The album loop up to a titled song without an artist. *)
Lemma append_album_raise i k l1 bad l2 n c :
  guild_key i = Some k → forallb convertible l1 = true →
  convertible bad = false →
  append_album i (l1 ++ bad :: l2) n c =
  mkRun (match omap song_of l1 with
         | [] => c
         | _ => set_songs k (songs c k ++ omap song_of l1) c
         end)
    [] (Raise IndexError).
Proof.
  intros Hk. revert n c. induction l1 as [|song l IH]; intros n c Hall Hbad.
  { simpl. unfold convertible in Hbad.
    destruct (sub_title bad) as [t|] eqn:Ht; [|done].
    destruct (sub_artists bad) as [|a rest] eqn:Ha; [|done].
    unfold mbind, M_bind, bind, to_Song. by rewrite Ha. }
  cbn [forallb] in Hall. apply andb_true_iff in Hall as [Hsong Hl].
  cbn [append_album app]. unfold convertible in Hsong.
  destruct (sub_title song) as [t|] eqn:Ht.
  - destruct (sub_artists song) as [|a rest] eqn:Ha; [done|].
    rewrite (bind_run _ _ _ _ _ _ (to_Song_run _ t _ _ _ Ha)), prepend_nil.
    rewrite (bind_run _ _ _ _ _ _ (Queue_append_run _ _ _ _ Hk)), prepend_nil.
    rewrite (IH _ _ Hl Hbad).
    assert (Hs : song_of song
                 = Some (mkSong (sub_id song) t a (sub_duration song)))
      by (unfold song_of; by rewrite Ht, Ha).
    rewrite (omap_cons_Some _ _ _ _ Hs).
    rewrite songs_set_songs, set_songs_twice, <-app_assoc. simpl app.
    f_equal. by destruct (omap song_of l).
  - rewrite (IH _ _ Hl Hbad).
    assert (Hs : song_of song = None) by (unfold song_of; by rewrite Ht).
    change (omap song_of (song :: l))
      with (match song_of song with
            | Some y => y :: omap song_of l
            | None => omap song_of l
            end).
    by rewrite Hs.
Qed.

(** The play command for an album that the server knows, up to the end of
    the album loop. *)
Lemma play_command_album sub w i query c c0 tr vc k value album l :
  get_voice_client w i true c = mkRun c0 tr (Return (Some vc)) →
  guild_key i = Some k →
  split_on colon query = ["album"; value] →
  get_album sub value = Return (Some album) →
  album_songs album = Some l →
  play_command sub w i query c =
  prepend tr
    match append_album (with_voice_client i vc) l 0 (ensure k c0) with
    | mkRun c1 tr1 (Return n) =>
        prepend
          (tr1 ++ [send_answer
                     (if bool_decide (Z.of_nat (length (songs c0 k)) = 0)
                         && bool_decide (now_playing c0 = None)
                      then "🎵 Now playing!" else "🎧 Added to the queue")
                     [added_line (default "" (album_name album)) n]])
          (if is_playing vc then mkRun c1 [] (Return tt)
           else play_queue w (with_voice_client i vc) None c1)
    | mkRun c1 tr1 (Raise e) => mkRun c1 tr1 (Raise e)
    end.
Proof.
  intros Hgvc Hk Hsplit Halbum Hl. unfold play_command.
  rewrite (bind_run _ _ _ _ _ _ Hgvc). rewrite Hsplit. cbv zeta.
  assert (Hk' : guild_key (with_voice_client i vc) = Some k)
    by (by rewrite guild_key_with_voice_client).
  rewrite (bind_run _ _ _ _ _ _ (Queue_length_run _ _ _ Hk')), prepend_nil.
  change (String.eqb "album" "song") with false.
  change (String.eqb "album" "album") with true. cbv iota.
  unfold mbind at 1, M_bind at 1, bind at 1, gets at 1.
  unfold mbind at 1, M_bind at 1, bind at 1.
  unfold mbind at 1, M_bind at 1, bind at 1, lift at 1. rewrite Halbum, Hl.
  rewrite prepend_nil.
  unfold mbind at 1, M_bind at 1, bind at 1.
  cbn [now_playing ensure set_songs with_dict].
  f_equal.
  destruct (append_album _ l 0 (ensure k c0)) as [c1 tr1 [n|e]];
    cbn [prepend ret]; [|done].
  rewrite app_nil_r.
  unfold mbind at 1, M_bind at 1, bind at 1, emit at 1.
  destruct (is_playing vc); cbn [negb].
  - cbn [ret prepend app]. by rewrite app_nil_r.
  - destruct (play_queue _ _ _ _) as [c2 tr2 res2].
    cbn [prepend]. by rewrite <-!app_assoc.
Qed.

(** X29: an album asked for while a song plays. The play command appends
    the songs of the album that have a title, in the order of the album,
    behind the songs already queued, passes over the ones without a title,
    and reports how many it has added; nothing is handed to the voice
    client and the session is left as it is. *)
Theorem play_album_appends_titled sub w i query c g vc value album l :
  joined i = Some (g, vc) → is_playing vc = true →
  split_on colon query = ["album"; value] →
  get_album sub value = Return (Some album) →
  album_songs album = Some l → forallb convertible l = true →
  let k := str (guild_id g) in
  let r := play_command sub w i query c in
  result r = Return tt
  ∧ songs (final r) k = songs c k ++ omap song_of l
  ∧ trace r
    = [send_answer
         (if bool_decide (Z.of_nat (length (songs c k)) = 0)
             && bool_decide (now_playing c = None)
          then "🎵 Now playing!" else "🎧 Added to the queue")
         [added_line (default "" (album_name album))
            (Z.of_nat (length (omap song_of l)))]]
  ∧ session_of (final r) i = session_of c i.
Proof.
  intros Hj Hp Hsplit Halbum Hl Hconv. cbv zeta.
  pose proof (joined_guild_key _ _ _ Hj) as Hk.
  rewrite (play_command_album sub w i query c c [] vc (str (guild_id g))
             value album l (get_voice_client_connect_joined _ _ _ _ _ Hj)
             Hk Hsplit Halbum Hl).
  rewrite (with_voice_client_joined _ _ _ Hj), Hp.
  rewrite (append_album_run _ _ _ _ _ Hk Hconv). rewrite prepend_nil.
  cbn [prepend final trace result app]. rewrite Z.add_0_l.
  split; [done|]. split; [|split; [done|]].
  - destruct (omap song_of l) eqn:Ho.
    + by rewrite songs_ensure, app_nil_r.
    + by rewrite songs_set_songs, songs_ensure.
  - by destruct (omap song_of l).
Qed.

Lemma play_album_appends_titled_witness :
  let r := play_command subsonic_demo world_cached guild1_playing "album:al"
             (cog_guild1 [song_C] (Some song_B) 0) in
  songs (final r) "1" = [song_C; song_A; song_B]
  ∧ trace r = [send_answer "🎧 Added to the queue" ["**Letters** (2 songs added)"]].
Proof.
  destruct (play_album_appends_titled subsonic_demo world_cached guild1_playing
              "album:al" (cog_guild1 [song_C] (Some song_B) 0) _ _ "al"
              (mkSubsonicAlbum (Some "Letters") (Some [sub_A; sub_untitled; sub_B]))
              [sub_A; sub_untitled; sub_B]
              eq_refl eq_refl eq_refl eq_refl eq_refl eq_refl)
    as (_ & Hq & Htr & _).
  split; [exact Hq|exact Htr].
Defined.

(** X30: an album that breaks off. When a titled song of the album lists no
    artist, [song.artists[0]] raises [IndexError] in the middle of the
    loop: the command ends there without an answer and without an advance,
    and the songs of the album before that one stay in the queue. *)
Theorem play_album_breaks_off sub w i query c g vc value album l1 bad l2 :
  joined i = Some (g, vc) →
  split_on colon query = ["album"; value] →
  get_album sub value = Return (Some album) →
  album_songs album = Some (l1 ++ bad :: l2) →
  forallb convertible l1 = true → convertible bad = false →
  let k := str (guild_id g) in
  let r := play_command sub w i query c in
  result r = Raise IndexError
  ∧ trace r = []
  ∧ songs (final r) k = songs c k ++ omap song_of l1.
Proof.
  intros Hj Hsplit Halbum Hl Hconv Hbad. cbv zeta.
  pose proof (joined_guild_key _ _ _ Hj) as Hk.
  rewrite (play_command_album sub w i query c c [] vc (str (guild_id g))
             value album _ (get_voice_client_connect_joined _ _ _ _ _ Hj)
             Hk Hsplit Halbum Hl).
  rewrite (with_voice_client_joined _ _ _ Hj).
  rewrite (append_album_raise _ _ _ _ _ _ _ Hk Hconv Hbad).
  cbn [prepend final trace result app]. split; [done|]. split; [done|].
  destruct (omap song_of l1) eqn:Ho.
  - by rewrite songs_ensure, app_nil_r.
  - by rewrite songs_set_songs, songs_ensure.
Qed.

Lemma play_album_breaks_off_witness :
  let r := play_command subsonic_broken world_cached guild1_idle "album:br"
             (cog_guild1 [song_C] None 0) in
  result r = Raise IndexError ∧ trace r = []
  ∧ songs (final r) "1" = [song_C; song_A].
Proof.
  destruct (play_album_breaks_off subsonic_broken world_cached guild1_idle
              "album:br" (cog_guild1 [song_C] None 0) _ _ "br"
              (mkSubsonicAlbum None (Some [sub_A; sub_no_artist; sub_B]))
              [sub_A] sub_no_artist [sub_B]
              eq_refl eq_refl eq_refl eq_refl eq_refl eq_refl)
    as (Hres & Htr & Hq).
  split; [exact Hres|]. split; [exact Htr|exact Hq].
Defined.
